(** * Playlist Management: the rating, pagination and search endpoints

    A shallow embedding of [app/main.py] (the FastAPI handlers and the SQL
    they run against [playlist.db]) and of the ingestion step of
    [data_processor.py], followed by the properties of the rating
    aggregate, of pagination and of title search.

    Conventions of the embedding.
    - Python [int] is [Z]; Python [str] / SQLite TEXT is [string], a
      sequence of UTF-8 bytes.
    - Python [float] / SQLite REAL is the rational number the double
      denotes ([Q], always kept reduced so that Leibniz equality is value
      equality).  [AVG] divides in binary64: its result is the double
      nearest to the quotient ([binary64]).  [round(x, 2)] rounds the
      exact value of the double [x]; its result is kept as the
      two-place decimal that the returned double prints as in the JSON
      body.  Doubles beyond the finite range (no sum or count of 64-bit
      integers reaches it) are outside the model.
    - The database is passed explicitly: a handler maps a database to a
      response and a database.  A table is the list of its rows in rowid
      order.
    - A row of [songs] is one that validates against the pydantic model
      [Song] (text [id] and [title]); the ingestion is modelled on the
      records that bind to such rows.  A listing is modelled by the rows
      the statement selects; the conversion of each row to a [Song] is
      not (it answers 500 on a row that does not validate, and its
      renaming of the key [class] leaves the served [class] null).
    - Search queries are taken within the length SQLite accepts for a
      LIKE pattern (50000 bytes); a longer one makes the statement fail.
    - The [created_at] columns (wall-clock defaults, never read by the
      handlers) and the AUTOINCREMENT key of [song_ratings] (the position
      of the row in the table, never read either) are left out. *)

From Stdlib Require Import ZArith QArith Qround Qabs Qpower Lia Lqa Ascii String.
From stdpp Require Import base option list sorting strings pretty gmap.

Local Open Scope string_scope.
Local Open Scope list_scope.
Local Open Scope Z_scope.

(** ** Numbers *)

Definition REAL := Q.

(** Round half to even, the rule of Python's [round]. *)
Definition round_half_even (x : Q) : Z :=
  let f := Qfloor x in
  match Qcompare (x - inject_Z f) (1 # 2) with
  | Lt => f
  | Gt => f + 1
  | Eq => if Z.even f then f else f + 1
  end.

(** [round(x, ndigits)] for [ndigits >= 0]: the exact value of the double
    [x] correctly rounded to [ndigits] decimal places, ties to even.  The
    result stands for the double nearest to it, which is printed as this
    decimal. *)
Definition py_round (x : REAL) (ndigits : Z) : REAL :=
  let scale := 10 ^ ndigits in
  Qred (Qmake (round_half_even (x * inject_Z scale)) (Z.to_pos scale)).

(** [x or d] on a nullable float: [None] and [0.0] are falsy. *)
Definition py_or (x : option REAL) (d : REAL) : REAL :=
  match x with
  | None => d
  | Some v => if Qeq_bool v 0 then d else v
  end.

Definition sum_Z (l : list Z) : Z := foldr Z.add 0 l.

(** [floor (log2 x)] of a positive rational. *)
Definition Qlog2_floor (x : Q) : Z :=
  let d := Z.log2 (Qnum x) - Z.log2 (Z.pos (Qden x)) in
  if Qle_bool (2 ^ d) x then d else d - 1.

(** The binary64 number nearest to [x], ties to the even significand:
    [x] is rounded to a whole number of units [2 ^ e], where [e] leaves
    53 significant bits and is at least the exponent of the subnormal
    numbers. *)
Definition binary64 (x : Q) : REAL :=
  if Qeq_bool x 0 then 0%Q
  else
    let e := Z.max (Qlog2_floor (Qabs x) - 52) (-1074) in
    Qred (inject_Z (round_half_even (x / 2 ^ e)) * 2 ^ e).

(** The arithmetic mean of a list of integers as [AVG] computes it: the
    integer sum and the count are converted to double and divided
    (0 for the empty list).  A sum beyond 64 bits, which SQLite
    accumulates in floating point instead, is outside the model. *)
Definition mean (l : list Z) : REAL :=
  binary64 (binary64 (inject_Z (sum_Z l))
            / binary64 (inject_Z (Z.of_nat (length l)))).

(** Half the gap between neighbouring doubles, relative to their size:
    [2 ^ -53]. *)
Definition binary64_eps : Q := 1 # 9007199254740992.

(** SQL [AVG(col)]: NULL over no rows, the mean as a REAL otherwise. *)
Definition sql_avg (l : list Z) : option REAL :=
  match l with
  | [] => None
  | _ :: _ => Some (mean l)
  end.

(** SQL [COUNT( * )]. *)
Definition sql_count {A} (l : list A) : Z := Z.of_nat (length l).

(** ** Data model *)

(** A JSON scalar as the ingestion step reads it from [playlist.json]. *)
Inductive json :=
  | JInt (n : Z)
  | JReal (r : REAL)
  | JStr (s : string).

(** A row of table [songs], from which the handlers build the pydantic
    model [Song] ([Song( **dict(row))]).  [id] and [title] are text; the
    sixteen audio-feature columns are nullable and passed through
    untouched. *)
Record Song := mkSong {
  id : string;
  title : string;
  danceability : option json;
  energy : option json;
  key : option json;
  loudness : option json;
  mode : option json;
  acousticness : option json;
  instrumentalness : option json;
  liveness : option json;
  valence : option json;
  tempo : option json;
  duration_ms : option json;
  time_signature : option json;
  num_bars : option json;
  num_sections : option json;
  num_segments : option json;
  class_ : option json;
  star_rating : option REAL
}.

(** A row of table [song_ratings]. *)
Record Rating := mkRating {
  rating_song_id : string;
  rating_value : Z
}.

Record database := mkDb {
  songs : list Song;
  song_ratings : list Rating
}.

Record SongResponse := mkSongResponse {
  resp_songs : list Song;
  total : Z;
  page : Z;
  per_page : Z;
  total_pages : Z
}.

Record RatingResponse := mkRatingResponse {
  song_id : string;
  average_rating : REAL;
  total_ratings : Z
}.

(** What a request produces: a 200 body, an [HTTPException] raised by
    the handler, or the 422 with which FastAPI rejects a request that
    fails the declared parameter constraints before the handler runs. *)
Inductive response (A : Type) :=
  | Ok (body : A)
  | HTTPException (status_code : Z) (detail : string)
  | RequestValidationError.
Arguments Ok {A} body.
Arguments HTTPException {A} status_code detail.
Arguments RequestValidationError {A}.

(** ** SQL fragments used by the handlers *)

(** [SELECT id FROM songs WHERE id = ?] followed by [fetchone()]. *)
Definition select_song (sid : string) (db : database) : option Song :=
  head (filter (λ s, id s = sid) (songs db)).

(** [SELECT rating FROM song_ratings WHERE song_id = ?]. *)
Definition ratings_of (sid : string) (db : database) : list Z :=
  rating_value <$> filter (λ r, rating_song_id r = sid) (song_ratings db).

(** [INSERT INTO song_ratings (song_id, rating) VALUES (?, ?)]. *)
Definition insert_rating (sid : string) (v : Z) (db : database) : database :=
  mkDb (songs db) (song_ratings db ++ [mkRating sid v]).

Definition set_star_rating (v : option REAL) (s : Song) : Song :=
  mkSong (id s) (title s) (danceability s) (energy s) (key s) (loudness s)
         (mode s) (acousticness s) (instrumentalness s) (liveness s)
         (valence s) (tempo s) (duration_ms s) (time_signature s)
         (num_bars s) (num_sections s) (num_segments s) (class_ s) v.

(** [UPDATE songs SET star_rating = ? WHERE id = ?]. *)
Definition update_star_rating (sid : string) (v : REAL) (db : database)
  : database :=
  mkDb ((λ s, if decide (id s = sid) then set_star_rating (Some v) s else s)
          <$> songs db)
       (song_ratings db).

(** ** The rating endpoints *)

(** [POST /songs/{song_id}/rate].  The body is validated against
    [RatingRequest] ([rating: int], [ge=1], [le=5]) before the handler
    runs; a rejected body is a 422 and the handler is not entered.  The
    handler commits once, after the UPDATE; the 404 is raised before any
    statement that writes. *)
Definition rate_song (sid : string) (rating : Z) (db : database)
  : response RatingResponse * database :=
  if negb ((1 <=? rating) && (rating <=? 5)) then
    (RequestValidationError, db)
  else
    match select_song sid db with
    | None => (HTTPException 404 "Song not found", db)
    | Some _ =>
        let db1 := insert_rating sid rating db in
        let avg_rating := sql_avg (ratings_of sid db1) in
        let total_ratings := sql_count (ratings_of sid db1) in
        let average_rating := py_or avg_rating 0%Q in
        let db2 := update_star_rating sid average_rating db1 in
        (Ok (mkRatingResponse sid (py_round average_rating 2) total_ratings),
         db2)
    end.

(** [GET /songs/{song_id}/rating]. *)
Definition get_song_rating (sid : string) (db : database)
  : response RatingResponse :=
  match select_song sid db with
  | None => HTTPException 404 "Song not found"
  | Some _ =>
      let avg_rating := sql_avg (ratings_of sid db) in
      let total_ratings := sql_count (ratings_of sid db) in
      let average_rating := py_or avg_rating 0%Q in
      Ok (mkRatingResponse sid (py_round average_rating 2) total_ratings)
  end.

(** ** Ordering and slicing *)

(** [ORDER BY title]: the rows in ascending title order under SQLite's
    BINARY collation (byte-wise comparison).  The statement names no
    second sort key; rows with equal titles stay in the order of the
    scan, i.e. rowid order.  Written as a stable insertion sort. *)
Fixpoint insert_by_title (x : Song) (l : list Song) : list Song :=
  match l with
  | [] => [x]
  | y :: l' =>
      if String.leb (title x) (title y) then x :: y :: l'
      else y :: insert_by_title x l'
  end.

Definition order_by_title (l : list Song) : list Song :=
  foldr insert_by_title [] l.

(** [LIMIT ? OFFSET ?].  SQLite reads a negative LIMIT as no limit and a
    negative OFFSET as zero. *)
Definition limit_offset {A} (lim off : Z) (l : list A) : list A :=
  let l' := drop (Z.to_nat off) l in
  if lim <? 0 then l' else take (Z.to_nat lim) l'.

(** The largest integer the [sqlite3] module binds to a statement
    parameter; a larger Python [int] raises [OverflowError]. *)
Definition sqlite_int64_max : Z := 2 ^ 63 - 1.

(** [GET /songs?page&per_page].  [page] is declared [Query(1, ge=1)] and
    [per_page] [Query(10, ge=1, le=100)]: a value outside is a 422 and the
    handler is not entered.  Inside, any exception is turned into a 500 by
    the [except Exception] clause; the one the handler's own arithmetic
    can cause is the [OverflowError] of binding an [offset] that does not
    fit SQLite's 64-bit INTEGER. *)
Definition get_all_songs (page per_page : Z) (db : database)
  : response SongResponse :=
  if negb (1 <=? page) || negb ((1 <=? per_page) && (per_page <=? 100)) then
    RequestValidationError
  else
    let total := sql_count (songs db) in
    let offset := (page - 1) * per_page in
    let total_pages := (total + per_page - 1) / per_page in
    if sqlite_int64_max <? offset then
      HTTPException 500 "Internal server error"
    else
      let rows := limit_offset per_page offset (order_by_title (songs db)) in
      Ok (mkSongResponse rows total page per_page total_pages).

(** ** Title search *)

Definition is_upper (c : ascii) : bool :=
  (65 <=? nat_of_ascii c)%nat && (nat_of_ascii c <=? 90)%nat.

(** SQLite's built-in [LOWER]: folds the ASCII letters A-Z and leaves
    every other byte (in particular every byte of a multi-byte UTF-8
    character) as it is. *)
Definition lower_ascii (c : ascii) : ascii :=
  if is_upper c then ascii_of_nat (nat_of_ascii c + 32) else c.

Fixpoint sql_lower (s : string) : string :=
  match s with
  | EmptyString => EmptyString
  | String c s' => String (lower_ascii c) (sql_lower s')
  end.

(** A UTF-8 continuation byte, [10xxxxxx]. *)
Definition is_continuation (c : ascii) : bool :=
  (128 <=? nat_of_ascii c)%nat && (nat_of_ascii c <=? 191)%nat.

Definition starts_with_continuation (ch : string) : bool :=
  match ch with
  | EmptyString => false
  | String c _ => is_continuation c
  end.

(** The characters of a UTF-8 string: each lead byte together with the
    continuation bytes that follow it (the text is well-formed UTF-8,
    being the encoding of a Python [str]). *)
Fixpoint utf8_chars (s : string) : list string :=
  match s with
  | EmptyString => []
  | String c s' =>
      match utf8_chars s' with
      | ch :: rest =>
          if starts_with_continuation ch then String c ch :: rest
          else String c EmptyString :: ch :: rest
      | [] => [String c EmptyString]
      end
  end.

(** SQLite's [LIKE] without ESCAPE, character by character: [%] matches
    any run of characters, [_] exactly one character, any other pattern
    character itself, ASCII letters regardless of case. *)
Fixpoint like_chars (p : list string) : list string -> bool :=
  match p with
  | [] => fun s => match s with [] => true | _ :: _ => false end
  | c :: p' =>
      if decide (c = "%") then
        fix any_run (s : list string) : bool :=
          like_chars p' s ||
          match s with [] => false | _ :: s' => any_run s' end
      else if decide (c = "_") then
        fun s => match s with [] => false | _ :: s' => like_chars p' s' end
      else
        fun s =>
          match s with
          | [] => false
          | d :: s' => bool_decide (sql_lower c = sql_lower d) && like_chars p' s'
          end
  end.

(** The text up to its first NUL byte.  [LIKE] reads both operands as C
    strings, which end there. *)
Fixpoint c_string (s : string) : string :=
  match s with
  | EmptyString => EmptyString
  | String c s' =>
      if Ascii.eqb c zero then EmptyString else String c (c_string s')
  end.

Definition sql_like (pattern s : string) : bool :=
  like_chars (utf8_chars (c_string pattern)) (utf8_chars (c_string s)).

(** The WHERE clause of the search, [LOWER(title) LIKE LOWER(?)] with
    the parameter [f"%{title}%"]. *)
Definition title_like (q : string) (s : Song) : bool :=
  sql_like (sql_lower ("%" +:+ q +:+ "%")) (sql_lower (title s)).

(** [GET /songs/search?title=].  [title] is declared [Query(...)]: a
    request without it is a 422.  The statement is
    [SELECT * FROM songs WHERE LOWER(title) LIKE LOWER(?) ORDER BY title]. *)
Definition search_songs_by_title (title_q : option string) (db : database)
  : response (list Song) :=
  match title_q with
  | None => RequestValidationError
  | Some q =>
      Ok (order_by_title (filter (λ s, title_like q s = true) (songs db)))
  end.

(** ** Ingestion ([data_processor.py]) *)

(** A normalized record: a Python [dict] from attribute name to value,
    [None] standing for Python's [None] (JSON [null]). *)
Abbreviation record := (gmap string (option json)).

(** [song.get(name)]: [None] when the key is absent. *)
Definition record_get (name : string) (song : record) : option json :=
  default None (song !! name).

(** [PlaylistDataProcessor.normalize_data].  [data] is the columnar
    object in key order: attribute name to a dict from [str(i)] to the
    value of row [i].  [list(data.values())[0]] raises [IndexError] on an
    empty object, which is the [None] result here. *)
Definition normalize_data (data : list (string * record))
  : option (list record) :=
  match data with
  | [] => None
  | (_, first_attribute) :: _ =>
      let num_records := size first_attribute in
      Some ((λ i : nat,
               let record :=
                 foldl (λ (rec : record) (col : string * record),
                          <[col.1 := default None (col.2 !! pretty i)]> rec)
                       ∅ data in
               <["star_rating" := None]> record)
            <$> seq 0 num_records)
  end.

(** Whether the [sqlite3] module can bind the Python [int] [n]: it fits
    SQLite's signed 64-bit INTEGER.  Binding a larger one raises
    [OverflowError]. *)
Definition fits_int64 (n : Z) : bool :=
  (- 2 ^ 63 <=? n) && (n <=? sqlite_int64_max).

(** A statement parameter as it is bound: [None] when binding raises. *)
Definition bind_param (v : option json) : option (option json) :=
  match v with
  | Some (JInt n) => if fits_int64 n then Some v else None
  | _ => Some v
  end.

Definition bind_text (v : option json) : option string :=
  match v with
  | Some (JStr s) => Some s
  | _ => None
  end.

Definition bind_real (v : option json) : option (option REAL) :=
  match v with
  | None => Some None
  | Some (JReal r) => Some (Some r)
  | Some (JInt n) => if fits_int64 n then Some (Some (inject_Z n)) else None
  | Some (JStr _) => None
  end.

(** The parameter tuple of the INSERT statement, read off the record with
    [song.get], as the row it stores.  The result is [None] when binding
    a parameter raises (an integer beyond 64 bits), which aborts
    [insert_songs].  Rows are kept to those the API can serve as a
    [Song]: the result is also [None] when [id] or [title] is not text or
    [star_rating] is text, and such records are outside the model.  The
    audio features are kept as they are bound; the conversions of
    SQLite's column affinity (an integer in a REAL column is stored as
    the float of the same value) are not modelled. *)
Definition song_of_record (song : record) : option Song :=
  i ← bind_text (record_get "id" song);
  t ← bind_text (record_get "title" song);
  danceability ← bind_param (record_get "danceability" song);
  energy ← bind_param (record_get "energy" song);
  key ← bind_param (record_get "key" song);
  loudness ← bind_param (record_get "loudness" song);
  mode ← bind_param (record_get "mode" song);
  acousticness ← bind_param (record_get "acousticness" song);
  instrumentalness ← bind_param (record_get "instrumentalness" song);
  liveness ← bind_param (record_get "liveness" song);
  valence ← bind_param (record_get "valence" song);
  tempo ← bind_param (record_get "tempo" song);
  duration_ms ← bind_param (record_get "duration_ms" song);
  time_signature ← bind_param (record_get "time_signature" song);
  num_bars ← bind_param (record_get "num_bars" song);
  num_sections ← bind_param (record_get "num_sections" song);
  num_segments ← bind_param (record_get "num_segments" song);
  class ← bind_param (record_get "class" song);
  r ← bind_real (record_get "star_rating" song);
  Some (mkSong i t danceability energy key loudness mode acousticness
          instrumentalness liveness valence tempo duration_ms
          time_signature num_bars num_sections num_segments class r).

(** [INSERT OR REPLACE INTO songs (...) VALUES (...)]: a row with the same
    primary key is deleted, and the new row is stored whole, under a fresh
    rowid.  Table [song_ratings] is not touched (SQLite does not enforce
    the foreign key unless asked to). *)
Definition insert_or_replace (row : Song) (db : database) : database :=
  mkDb (filter (λ s, id s ≠ id row) (songs db) ++ [row]) (song_ratings db).

(** [PlaylistDataProcessor.insert_songs]: one INSERT OR REPLACE per
    record, committed together. *)
Fixpoint insert_songs (songs : list record) (db : database)
  : option database :=
  match songs with
  | [] => Some db
  | song :: rest =>
      row ← song_of_record song;
      insert_songs rest (insert_or_replace row db)
  end.

(** [PlaylistDataProcessor.process] on an existing database
    ([CREATE TABLE IF NOT EXISTS] leaves existing tables alone). *)
Definition process (data : list (string * record)) (db : database)
  : option database :=
  normalized ← normalize_data data;
  insert_songs normalized db.

(** * Vocabulary of the properties *)

(** The song table has a row with id [sid]. *)
Definition song_exists (sid : string) (db : database) : Prop :=
  sid ∈ id <$> songs db.

(** A rating that passes the validation of [RatingRequest]. *)
Definition valid_rating (v : Z) : Prop := 1 ≤ v ≤ 5.

#[local] Instance valid_rating_dec v : Decision (valid_rating v).
Proof. unfold valid_rating. apply _. Defined.

#[local] Instance song_exists_dec sid db : Decision (song_exists sid db).
Proof. unfold song_exists. apply _. Defined.

(** Whether [rate_song sid v] gets past validation and the existence
    check on [db]. *)
Definition accepted (sid : string) (v : Z) (db : database) : Prop :=
  valid_rating v ∧ song_exists sid db.

#[local] Instance accepted_dec sid v db : Decision (accepted sid v db).
Proof. unfold accepted. apply _. Defined.

(** A run of [POST /songs/{id}/rate] requests, in arrival order, each
    carrying its own song id; the responses are dropped. *)
Definition submit_ratings (calls : list (string * Z)) (db : database)
  : database :=
  foldl (λ d c, (rate_song c.1 c.2 d).2) db calls.

(** The values submitted for [sid] within a run, in order. *)
Definition values_for (sid : string) (calls : list (string * Z)) : list Z :=
  snd <$> filter (λ c, c.1 = sid) calls.

(** A song row with every nullable column NULL. *)
Definition bare_song (i t : string) : Song :=
  mkSong i t None None None None None None None None None None None None
         None None None None None.

Definition example_store : database :=
  mkDb [bare_song "s1" "3AM"; bare_song "s2" "Unwell"] [].

Definition example_calls : list (string * Z) :=
  [("s1", 4); ("s2", 1); ("nobody", 5); ("s2", 9); ("s1", 5)].

Definition twice_rated_store : database :=
  mkDb [bare_song "s1" "3AM"] [mkRating "s1" 1; mkRating "s1" 1].

Definition title_le (a b : Song) : Prop := String.le (title a) (title b).

Definition valid_page (page per_page : Z) : Prop :=
  1 ≤ page ∧ 1 ≤ per_page ≤ 100.

(** The two-sided bound that says [q] is [total / per_page] rounded up. *)
Definition is_ceil_div (q total per_page : Z) : Prop :=
  (q - 1) * per_page < total ≤ q * per_page.

(** U+00C9 and U+00E9, the upper- and lower-case e with acute accent, in
    UTF-8. *)
Definition E_acute : string := String (ascii_of_nat 195) (String (ascii_of_nat 137) "").
Definition e_acute : string := String (ascii_of_nat 195) (String (ascii_of_nat 169) "").

Definition accented_store : database := mkDb [bare_song "s1" E_acute] [].

(** [q] occurs in [t] as a literal substring. *)
Definition is_substring (q t : string) : Prop :=
  ∃ a b, t = a +:+ q +:+ b.

Definition abc_store : database := mkDb [bare_song "s1" "abc"] [].

(** The order the claim asks for: by title, equal titles by id. *)
Definition title_then_id_le (a b : Song) : Prop :=
  (title a ≠ title b ∧ String.le (title a) (title b))
  ∨ (title a = title b ∧ String.le (id a) (id b)).

#[local] Instance title_then_id_le_dec : RelDecision title_then_id_le.
Proof. intros a b. unfold title_then_id_le. apply _. Defined.

Definition tie_store : database :=
  mkDb [bare_song "b" "Same"; bare_song "a" "Same"] [].

Definition reingest_data : list (string * record) :=
  [("id", {["0" := Some (JStr "s1")]});
   ("title", {["0" := Some (JStr "3AM")]});
   ("tempo", {["0" := Some (JInt 120)]})].

Definition reingest_record : record :=
  <["star_rating" := None]>
    (<["tempo" := Some (JInt 120)]>
       (<["title" := Some (JStr "3AM")]>
          (<["id" := Some (JStr "s1")]> ∅))).

Definition rated_store : database := (rate_song "s1" 4 example_store).2.

Definition reingested_store : database :=
  mkDb [bare_song "s2" "Unwell";
        mkSong "s1" "3AM" None None None None None None None None None
               (Some (JInt 120)) None None None None None None None]
       [mkRating "s1" 4].

(** The cached aggregate of every song agrees with the log: [star_rating]
    is what [AVG(rating)] gives over the song's rows of [song_ratings]
    (NULL when there are none). *)
Definition cache_coherent (db : database) : Prop :=
  ∀ s, s ∈ songs db → star_rating s = sql_avg (ratings_of (id s) db).

(** The constraints the schema puts on [song_ratings]: the CHECK on
    [rating] and the reference from [song_id] to [songs]. *)
Definition log_ok (db : database) : Prop :=
  Forall (λ r, valid_rating (rating_value r)
               ∧ song_exists (rating_song_id r) db) (song_ratings db).

(** The rows a run of calls adds to [song_ratings] on [db]. *)
Definition accepted_rows (calls : list (string * Z)) (db : database)
  : list Rating :=
  (λ c, mkRating c.1 c.2) <$> filter (λ c, accepted c.1 c.2 db) calls.

(** The songs a page request shows: the [songs] of a 200 body, nothing
    for an error response. *)
Definition page_items (page per_page : Z) (db : database) : list Song :=
  match get_all_songs page per_page db with
  | Ok r => resp_songs r
  | _ => []
  end.

(** Every byte of [s] is an ASCII character. *)
Fixpoint ascii_only (s : string) : bool :=
  match s with
  | EmptyString => true
  | String c s' => (nat_of_ascii c <? 128)%nat && ascii_only s'
  end.

(** [q] holds neither of the LIKE wildcards [%] and [_]. *)
Fixpoint wildcard_free (q : string) : bool :=
  match q with
  | EmptyString => true
  | String c q' =>
      negb (Ascii.eqb c "%") && negb (Ascii.eqb c "_") && wildcard_free q'
  end.

(** No byte of [s] is NUL.  SQLite's LIKE reads its operands as C
    strings, which end at the first NUL byte. *)
Fixpoint nul_free (s : string) : bool :=
  match s with
  | EmptyString => true
  | String c s' => negb (Ascii.eqb c zero) && nul_free s'
  end.

(** SQLITE_MAX_LIKE_PATTERN_LENGTH: a LIKE pattern of more bytes is an
    error of the statement. *)
Definition sqlite_max_like_pattern_length : Z := 50000.

(** The bytes of a string, each as a one-byte string. *)
Fixpoint singles (s : string) : list string :=
  match s with
  | EmptyString => []
  | String c s' => String c EmptyString :: singles s'
  end.

(** [PlaylistDataProcessor.create_database]: both tables are created
    [IF NOT EXISTS]: a database file that has them is left as it is, a
    new file ([None]) gets them empty. *)
Definition create_database (file : option database) : database :=
  default (mkDb [] []) file.

(** The rows a list of records binds to, when all of them bind. *)
Definition rows_of_records (recs : list record) : option (list Song) :=
  mapM song_of_record recs.

(** INSERT OR REPLACE of a list of rows, one after the other. *)
Definition insert_rows (rows : list Song) (db : database) : database :=
  foldl (λ d row, insert_or_replace row d) db rows.

Definition two_column_data : list (string * record) :=
  [("id", {["0" := Some (JStr "a")]} ∪ {["1" := Some (JStr "b")]});
   ("title", {["0" := Some (JStr "Song A")]})].

Definition two_column_normalized : list record :=
  [<["star_rating" := None]>
     (<["title" := Some (JStr "Song A")]> (<["id" := Some (JStr "a")]> ∅));
   <["star_rating" := None]>
     (<["title" := None]> (<["id" := Some (JStr "b")]> ∅))].

(** The row [reingest_record] binds to. *)
Definition reingested_row : Song :=
  mkSong "s1" "3AM" None None None None None None None None None
         (Some (JInt 120)) None None None None None None None.

Definition reordered_calls : list (string * Z) :=
  [("s2", 1); ("s1", 5); ("s1", 4)].


(** * Properties *)

(** Closed instances of decidable propositions are settled by running
    the decision procedure. *)
Ltac by_decision :=
  first [ by apply (bool_decide_unpack _)
        | by apply (bool_decide_eq_false_1 _) ].

(** ** Numbers *)

Lemma Qred_zero_canonical (q : Q) : Qeq_bool (Qred q) 0 = true → Qred q = 0%Q.
Proof.
  intros H. apply Qeq_bool_iff in H. rewrite Qred_correct in H.
  change 0%Q with (Qred 0). by apply Qred_complete.
Qed.

Lemma binary64_zero_canonical (x : Q) :
  Qeq_bool (binary64 x) 0 = true → binary64 x = 0%Q.
Proof.
  unfold binary64. destruct (Qeq_bool x 0); [done|].
  apply Qred_zero_canonical.
Qed.

(** [AVG(...) or 0.0] is the mean of the selected values, also when there
    are none. *)
Lemma py_or_sql_avg (l : list Z) : py_or (sql_avg l) 0%Q = mean l.
Proof.
  destruct l as [|v l]; [reflexivity|].
  unfold sql_avg, py_or.
  destruct (Qeq_bool (mean (v :: l)) 0) eqn:E; [|reflexivity].
  symmetry. by apply binary64_zero_canonical.
Qed.

Lemma round_half_even_close (x : Q) :
  (Qabs (x - inject_Z (round_half_even x)) <= 1 # 2)%Q.
Proof.
  pose proof (Qfloor_le x) as Hlo. pose proof (Qlt_floor x) as Hhi.
  rewrite inject_Z_plus in Hhi. change (inject_Z 1) with 1%Q in Hhi.
  unfold round_half_even. apply Qabs_Qle_condition.
  destruct (Qcompare_spec (x - inject_Z (Qfloor x)) (1 # 2)) as [E|E|E].
  - destruct (Z.even (Qfloor x));
      rewrite ?inject_Z_plus; change (inject_Z 1) with 1%Q; split; lra.
  - split; lra.
  - rewrite inject_Z_plus. change (inject_Z 1) with 1%Q. split; lra.
Qed.

(** [round(x, 2)] is a multiple of 1/100 within half a hundredth of [x]. *)
Lemma py_round_close (x : Q) : (Qabs (x - py_round x 2) <= 1 # 200)%Q.
Proof.
  pose proof (round_half_even_close (x * inject_Z (10 ^ 2))) as H.
  unfold py_round. cbv zeta. rewrite Qred_correct, Qmake_Qdiv.
  set (k := round_half_even (x * inject_Z (10 ^ 2))) in *.
  change (inject_Z (Z.pos (Z.to_pos (10 ^ 2)))) with 100%Q.
  change (inject_Z (10 ^ 2)) with 100%Q in H.
  apply Qabs_Qle_condition in H as [H1 H2]. apply Qabs_Qle_condition.
  split.
  - apply (Qmult_le_r _ _ 100); [reflexivity|]. field_simplify. lra.
  - apply (Qmult_le_r _ _ 100); [reflexivity|]. field_simplify. lra.
Qed.

(** ** Rounding to binary64 *)

Lemma Qlog2_floor_le (x : Q) : (0 < x)%Q → (2 ^ Qlog2_floor x <= x)%Q.
Proof.
  intros Hx. unfold Qlog2_floor. cbv zeta.
  destruct (Qle_bool _ x) eqn:E; [by apply Qle_bool_iff|]. clear E.
  destruct x as [p q]. cbn [Qnum Qden].
  assert (Hp : 0 < p) by (unfold Qlt in Hx; cbn in Hx; lia).
  pose proof (Z.log2_spec p Hp) as [Ha _].
  pose proof (Z.log2_spec (Z.pos q) (Pos2Z.is_pos q)) as [_ Hb].
  pose proof (Z.log2_nonneg p) as Ha0.
  pose proof (Z.log2_nonneg (Z.pos q)) as Hb0.
  set (a := Z.log2 p) in *. set (b := Z.log2 (Z.pos q)) in *.
  replace (a - b - 1) with (a - Z.succ b) by lia.
  rewrite Qpower_minus by discriminate.
  rewrite <- !(Zpower_Qpower 2) by lia.
  apply Qle_shift_div_r.
  - change 0%Q with (inject_Z 0). rewrite <- Zlt_Qlt. lia.
  - unfold Qle, Qmult, inject_Z. cbn [Qnum Qden]. nia.
Qed.

(** Rounding to binary64 moves a number of the normal range by at most
    the fraction [2 ^ -53] of its size. *)
Lemma binary64_close (x : Q) :
  (1 # 2 <= x)%Q → (Qabs (binary64 x - x) <= x * binary64_eps)%Q.
Proof.
  intros Hx. unfold binary64.
  destruct (Qeq_bool x 0) eqn:E; [apply Qeq_bool_iff in E; lra|]. clear E.
  cbv zeta. rewrite Qred_correct.
  assert (Hax : (Qabs x == x)%Q) by (apply Qabs_pos; lra).
  assert (HL : (2 ^ Qlog2_floor (Qabs x) <= x)%Q).
  { apply (Qle_trans _ (Qabs x)); [apply Qlog2_floor_le | apply Qle_lteq; by right].
    apply (Qlt_le_trans _ x); [lra | apply Qle_lteq; right; by symmetry]. }
  set (L := Qlog2_floor (Qabs x)) in *. clearbody L. clear Hax.
  set (e := Z.max (L - 52) (-1074)).
  assert (HP : (0 < 2 ^ e)%Q) by (by apply Qpower_0_lt).
  assert (He : (2 ^ e <= x * (2 # 2 ^ 53))%Q).
  { subst e. destruct (Z.max_spec (L - 52) (-1074)) as [[_ ->]|[_ ->]].
    - apply (Qle_trans _ ((1 # 2) * (2 # 2 ^ 53))).
      + by vm_compute.
      + apply Qmult_le_compat_r; [done | by vm_compute].
    - rewrite Qpower_minus by discriminate.
      apply Qle_shift_div_r; [by vm_compute|].
      assert (Hc : (x * (2 # 2 ^ 53) * 2 ^ 52 == x)%Q).
      { assert (Hc : ((2 # 2 ^ 53) * 2 ^ 52 == 1)%Q) by (by vm_compute).
        rewrite <- Qmult_assoc, Hc. ring. }
      by rewrite Hc. }
  pose proof (round_half_even_close (x / 2 ^ e)) as Hc.
  set (k := inject_Z (round_half_even (x / 2 ^ e))) in *.
  set (P := (2 ^ e)%Q) in *.
  apply Qabs_Qle_condition in Hc as [H1 H2]. apply Qabs_Qle_condition.
  assert (Hx' : (x == x / P * P)%Q) by (field; lra).
  assert (Hu : ((2 # 2 ^ 53) == 2 * binary64_eps)%Q) by (by vm_compute).
  rewrite Hu in He. set (u := binary64_eps) in *. clearbody u.
  set (y := (x / P)%Q) in *.
  split; nra.
Qed.

(** The double AVG returns is within a few units in the last place of
    the exact quotient. *)
Lemma binary64_quotient_close (s n : Z) :
  1 ≤ n → n ≤ s ≤ 5 * n →
  (Qabs (binary64 (binary64 (inject_Z s) / binary64 (inject_Z n))
         - inject_Z s / inject_Z n) <= 20 * binary64_eps)%Q.
Proof.
  intros Hn [Hs1 Hs5].
  assert (HN : (1 <= inject_Z n)%Q) by (change 1%Q with (inject_Z 1); by rewrite <- Zle_Qle).
  assert (HS1 : (inject_Z n <= inject_Z s)%Q) by (by rewrite <- Zle_Qle).
  assert (HS5 : (inject_Z s <= 5 * inject_Z n)%Q).
  { change 5%Q with (inject_Z 5). by rewrite <- inject_Z_mult, <- Zle_Qle. }
  set (S := inject_Z s) in *. set (N := inject_Z n) in *.
  assert (HS : (1 # 2 <= S)%Q) by lra. apply binary64_close in HS.
  assert (HN' : (1 # 2 <= N)%Q) by lra. apply binary64_close in HN'.
  set (s' := binary64 S) in *. set (n' := binary64 N) in *.
  apply Qabs_Qle_condition in HS as [HSl HSu].
  apply Qabs_Qle_condition in HN' as [HNl HNu].
  unfold binary64_eps in *.
  set (r := (S / N)%Q).
  assert (Hr : (S == r * N)%Q) by (unfold r; field; lra).
  assert (Hr1 : (1 <= r)%Q) by (unfold r; apply Qle_shift_div_l; lra).
  assert (Hr5 : (r <= 5)%Q) by (unfold r; apply Qle_shift_div_r; lra).
  clearbody r.
  assert (Hn0 : (0 < n')%Q) by lra.
  set (q := (s' / n')%Q).
  assert (Hq : (q * n' == s')%Q) by (unfold q; field; lra).
  assert (Hq0 : (0 <= q)%Q) by (unfold q; apply Qle_shift_div_l; lra).
  clearbody q.
  assert (E1 : (q * (1 - (1 # 9007199254740992)) <= r * (1 + (1 # 9007199254740992)))%Q).
  { assert (H : (0 <= q * (n' - N * (1 - (1 # 9007199254740992))))%Q)
      by (apply Qmult_le_0_compat; lra).
    apply (Qmult_le_r _ _ N); [lra|]. lra. }
  assert (E2 : (r * (1 - (1 # 9007199254740992)) <= q * (1 + (1 # 9007199254740992)))%Q).
  { assert (H : (0 <= q * (N * (1 + (1 # 9007199254740992)) - n'))%Q)
      by (apply Qmult_le_0_compat; lra).
    apply (Qmult_le_r _ _ N); [lra|]. lra. }
  assert (Hq12 : (1 # 2 <= q)%Q) by lra.
  pose proof (binary64_close q Hq12) as Hm. unfold binary64_eps in Hm.
  set (m := binary64 q) in *.
  apply Qabs_Qle_condition in Hm as [Hml Hmu].
  apply Qabs_Qle_condition. split; lra.
Qed.

(** For up to 10^12 ratings in 1..5, rounding the double that [AVG]
    returns to two places gives a nearest hundredth of the exact mean. *)
Lemma round_quotient_close (s n : Z) :
  1 ≤ n ≤ 10 ^ 12 → n ≤ s ≤ 5 * n →
  (Qabs (inject_Z s / inject_Z n
         - py_round (binary64 (binary64 (inject_Z s) / binary64 (inject_Z n))) 2)
   <= 1 # 200)%Q.
Proof.
  intros [Hn Hn12] Hs.
  pose proof (binary64_quotient_close s n Hn Hs) as Ha.
  set (a := binary64 _) in *. clearbody a.
  pose proof (round_half_even_close (a * inject_Z (10 ^ 2))) as Hc.
  unfold py_round. cbv zeta. rewrite Qred_correct, Qmake_Qdiv.
  set (k := round_half_even (a * inject_Z (10 ^ 2))) in *. clearbody k.
  change (inject_Z (Z.pos (Z.to_pos (10 ^ 2)))) with 100%Q.
  change (inject_Z (10 ^ 2)) with 100%Q in Hc.
  unfold binary64_eps in Ha.
  apply Qabs_Qle_condition in Ha as [Ha1 Ha2].
  apply Qabs_Qle_condition in Hc as [Hc1 Hc2].
  assert (HN : (1 <= inject_Z n)%Q)
    by (change 1%Q with (inject_Z 1); rewrite <- Zle_Qle; lia).
  assert (HN12 : (inject_Z n <= 1000000000000)%Q)
    by (change 1000000000000%Q with (inject_Z (10 ^ 12)); rewrite <- Zle_Qle; lia).
  (* The exact mean passes a rounding boundary only by a multiple of
     1/(200 n), which is more than the error of AVG. *)
  set (S := inject_Z s) in *. set (N := inject_Z n) in *.
  set (K := inject_Z k) in *.
  set (m := (S / N)%Q) in *.
  assert (Hm : (S == m * N)%Q) by (unfold m; field; lra).
  assert (Hz : 2 * k * n ≤ 200 * s + n ∧ 200 * s ≤ 2 * k * n + n).
  { split.
    - destruct (decide (2 * k * n ≤ 200 * s + n)) as [|Hl]; [done|exfalso].
      assert (H : 200 * s + n + 1 ≤ 2 * k * n) by lia.
      rewrite Zle_Qle, !inject_Z_plus, !inject_Z_mult in H.
      change (inject_Z 200) with 200%Q in H. change (inject_Z 2) with 2%Q in H.
      change (inject_Z 1) with 1%Q in H.
      fold S N K in H. clearbody S N K m.
      set (d := (K - (1 # 2) - 100 * m)%Q).
      assert (Hd : (1 # 2 <= d * N)%Q) by (unfold d; lra).
      assert (Hd0 : (0 <= d)%Q).
      { destruct (Qlt_le_dec d 0) as [Hneg|]; [exfalso | done].
        assert (0 <= (- d) * N)%Q by (apply Qmult_le_0_compat; lra). lra. }
      assert (Hd' : (0 <= d * (1000000000000 - N))%Q)
        by (apply Qmult_le_0_compat; lra).
      unfold d in *. lra.
    - destruct (decide (200 * s ≤ 2 * k * n + n)) as [|Hl]; [done|exfalso].
      assert (H : 2 * k * n + n + 1 ≤ 200 * s) by lia.
      rewrite Zle_Qle, !inject_Z_plus, !inject_Z_mult in H.
      change (inject_Z 200) with 200%Q in H. change (inject_Z 2) with 2%Q in H.
      change (inject_Z 1) with 1%Q in H.
      fold S N K in H. clearbody S N K m.
      set (d := (100 * m - K - (1 # 2))%Q).
      assert (Hd : (1 # 2 <= d * N)%Q) by (unfold d; lra).
      assert (Hd0 : (0 <= d)%Q).
      { destruct (Qlt_le_dec d 0) as [Hneg|]; [exfalso | done].
        assert (0 <= (- d) * N)%Q by (apply Qmult_le_0_compat; lra). lra. }
      assert (Hd' : (0 <= d * (1000000000000 - N))%Q)
        by (apply Qmult_le_0_compat; lra).
      unfold d in *. lra. }
  destruct Hz as [Hz1 Hz2].
  rewrite Zle_Qle, !inject_Z_plus, !inject_Z_mult in Hz1, Hz2.
  change (inject_Z 200) with 200%Q in *. change (inject_Z 2) with 2%Q in *.
  fold S N K in Hz1, Hz2. clearbody S N K m.
  apply Qabs_Qle_condition. split.
  - apply (Qmult_le_r _ _ (200 * N)); [lra|].
    unfold Qdiv. change (/ 100)%Q with (1 # 100)%Q. lra.
  - apply (Qmult_le_r _ _ (200 * N)); [lra|].
    unfold Qdiv. change (/ 100)%Q with (1 # 100)%Q. lra.
Qed.

(** ** The song and rating tables under the rating endpoints *)

Lemma select_song_None (sid : string) (db : database) :
  select_song sid db = None ↔ ¬ song_exists sid db.
Proof.
  unfold select_song, song_exists. destruct db as [ss rs]; simpl.
  induction ss as [|s ss IH].
  - simpl. split; [intros _ H; by apply elem_of_nil in H | done].
  - rewrite filter_cons, fmap_cons, elem_of_cons.
    case_decide as Hid; simpl.
    + split; [done | intros H; destruct H; by left].
    + rewrite IH. split; [intros H [?|?]; [congruence | done] | tauto].
Qed.

Lemma select_song_Some (sid : string) (db : database) :
  song_exists sid db → ∃ s, select_song sid db = Some s ∧ id s = sid.
Proof.
  intros H. destruct (select_song sid db) as [s|] eqn:E.
  - exists s. split; [done|].
    unfold select_song in E. apply head_Some in E as [l' E].
    assert (Hin : s ∈ filter (λ s, id s = sid) (songs db))
      by (rewrite E; left).
    by apply list_elem_of_filter in Hin as [? _].
  - by apply select_song_None in E.
Qed.

Lemma valid_rating_check (v : Z) :
  valid_rating v → negb ((1 <=? v) && (v <=? 5)) = false.
Proof. unfold valid_rating. intros [? ?]. apply negb_false_iff, andb_true_intro.
  split; apply Z.leb_le; lia.
Qed.

Lemma invalid_rating_check (v : Z) :
  ¬ valid_rating v → negb ((1 <=? v) && (v <=? 5)) = true.
Proof.
  unfold valid_rating. intros H. apply negb_true_iff, andb_false_iff.
  destruct (decide (1 ≤ v)); [right | left]; apply Z.leb_gt; lia.
Qed.

Lemma rate_song_rejected_response sid v db :
  ¬ accepted sid v db →
  ∃ r, rate_song sid v db = (r, db) ∧ ∀ body, r ≠ Ok body.
Proof.
  intros H. unfold rate_song.
  destruct (decide (valid_rating v)) as [Hv|Hv].
  - rewrite valid_rating_check by done.
    destruct (select_song sid db) eqn:E; [|by eauto].
    exfalso. apply H. split; [done|].
    destruct (decide (song_exists sid db)) as [|Hn]; [done|].
    apply select_song_None in Hn. congruence.
  - rewrite invalid_rating_check by done. by eauto.
Qed.

Lemma rate_song_rejected sid v db :
  ¬ accepted sid v db → (rate_song sid v db).2 = db.
Proof.
  intros H. by destruct (rate_song_rejected_response _ _ _ H) as (? & -> & _).
Qed.

Lemma ratings_of_update sid sid' x db :
  ratings_of sid (update_star_rating sid' x db) = ratings_of sid db.
Proof. reflexivity. Qed.

Lemma ratings_of_insert sid sid' v db :
  ratings_of sid (insert_rating sid' v db) =
  ratings_of sid db ++ (if decide (sid' = sid) then [v] else []).
Proof.
  unfold ratings_of, insert_rating; simpl.
  rewrite filter_app, fmap_app, filter_cons, filter_nil; simpl.
  by case_decide.
Qed.

Lemma rate_song_accepted sid v db :
  accepted sid v db →
  rate_song sid v db =
    (Ok (mkRatingResponse sid
           (py_round (mean (ratings_of sid db ++ [v])) 2)
           (Z.of_nat (length (ratings_of sid db ++ [v])))),
     update_star_rating sid (mean (ratings_of sid db ++ [v]))
       (insert_rating sid v db)).
Proof.
  intros [Hv He]. unfold rate_song. rewrite valid_rating_check by done.
  destruct (select_song_Some _ _ He) as (s & -> & _).
  cbv zeta. rewrite ratings_of_insert, decide_True by done.
  rewrite py_or_sql_avg. reflexivity.
Qed.

Lemma song_ids_update sid x db :
  id <$> songs (update_star_rating sid x db) = id <$> songs db.
Proof.
  unfold update_star_rating; simpl. rewrite <- list_fmap_compose.
  apply list_fmap_ext. intros _ s _. simpl. by case_decide.
Qed.

Lemma rate_song_song_exists sid sid' v db :
  song_exists sid (rate_song sid' v db).2 ↔ song_exists sid db.
Proof.
  destruct (decide (accepted sid' v db)) as [Ha|Ha].
  - rewrite rate_song_accepted by done. unfold song_exists. cbn [snd].
    rewrite song_ids_update. reflexivity.
  - by rewrite rate_song_rejected.
Qed.

Lemma rate_song_ratings_of sid sid' v db :
  ratings_of sid (rate_song sid' v db).2 =
  ratings_of sid db ++
    (if decide (accepted sid' v db ∧ sid' = sid) then [v] else []).
Proof.
  destruct (decide (accepted sid' v db)) as [Ha|Ha].
  - rewrite rate_song_accepted by done. cbn [snd].
    rewrite ratings_of_update, ratings_of_insert.
    destruct (decide (sid' = sid)).
    + by rewrite decide_True.
    + by rewrite decide_False by tauto.
  - rewrite rate_song_rejected by done.
    rewrite decide_False by tauto. by rewrite app_nil_r.
Qed.

Lemma rate_song_Ok_accepted sid v db resp db' :
  rate_song sid v db = (Ok resp, db') → accepted sid v db.
Proof.
  intros H. destruct (decide (accepted sid v db)) as [|Hn]; [done|].
  destruct (rate_song_rejected_response _ _ _ Hn) as (r & E & Hr).
  rewrite E in H. injection H as -> _. by destruct (Hr resp).
Qed.

Lemma submit_ratings_song_exists sid calls db :
  song_exists sid (submit_ratings calls db) ↔ song_exists sid db.
Proof.
  revert db. induction calls as [|c calls IH]; intros db; [done|].
  simpl. by rewrite IH, rate_song_song_exists.
Qed.

Lemma values_for_cons sid s v calls :
  values_for sid ((s, v) :: calls) =
  (if decide (s = sid) then [v] else []) ++ values_for sid calls.
Proof. unfold values_for. rewrite filter_cons. simpl. by case_decide. Qed.

Lemma submit_ratings_ratings_of sid calls db :
  song_exists sid db →
  Forall valid_rating (values_for sid calls) →
  ratings_of sid (submit_ratings calls db) =
  ratings_of sid db ++ values_for sid calls.
Proof.
  revert db. induction calls as [|[s v] calls IH]; intros db He Hv.
  - simpl. by rewrite app_nil_r.
  - rewrite values_for_cons in Hv |- *. apply Forall_app in Hv as [Hv Hvs].
    change (submit_ratings ((s, v) :: calls) db)
      with (submit_ratings calls (rate_song s v db).2).
    rewrite IH by (by try apply rate_song_song_exists).
    rewrite rate_song_ratings_of, <- app_assoc. do 2 f_equal.
    destruct (decide (s = sid)) as [->|Hne].
    + rewrite Forall_singleton in Hv.
      by rewrite decide_True by (split; [split|]; done).
    + by rewrite decide_False by tauto.
Qed.

Lemma get_song_rating_exists sid db :
  song_exists sid db →
  get_song_rating sid db =
    Ok (mkRatingResponse sid (py_round (mean (ratings_of sid db)) 2)
          (Z.of_nat (length (ratings_of sid db)))).
Proof.
  intros He. unfold get_song_rating.
  destruct (select_song_Some _ _ He) as (s & -> & _).
  cbv zeta. by rewrite py_or_sql_avg.
Qed.

(** C1.  For a song that exists and has no rating yet, after any run of
    rating submissions (for this and for other songs, in any
    interleaving) whose values for this song are [v_1..v_N], all in 1..5,
    [get_song_rating] answers [total_ratings = N] and
    [average_rating = round(mean(v_1..v_N), 2)], the mean being the
    double that the division of the sum by [N] gives and [round] acting
    on that double; two runs that submit the same values for the song
    give the same answer. *)
Theorem rating_after_submissions (sid : string) (calls : list (string * Z))
    (db : database) :
  song_exists sid db →
  ratings_of sid db = [] →
  Forall valid_rating (values_for sid calls) →
  get_song_rating sid (submit_ratings calls db) =
    Ok (mkRatingResponse sid
          (py_round (mean (values_for sid calls)) 2)
          (Z.of_nat (length (values_for sid calls))))
  ∧ ∀ calls', values_for sid calls' = values_for sid calls →
      get_song_rating sid (submit_ratings calls' db) =
      get_song_rating sid (submit_ratings calls db).
Proof.
  intros He H0 Hv.
  assert (Hget : ∀ cs, values_for sid cs = values_for sid calls →
    get_song_rating sid (submit_ratings cs db) =
    Ok (mkRatingResponse sid (py_round (mean (values_for sid calls)) 2)
          (Z.of_nat (length (values_for sid calls))))).
  { intros cs Hcs.
    rewrite get_song_rating_exists by (by apply submit_ratings_song_exists).
    rewrite submit_ratings_ratings_of by (by rewrite ?Hcs).
    by rewrite H0, Hcs. }
  split; [by apply Hget|].
  intros calls' Hc. by rewrite !Hget.
Qed.

Lemma rating_after_submissions_witness :
  song_exists "s1" example_store
  ∧ ratings_of "s1" example_store = []
  ∧ Forall valid_rating (values_for "s1" example_calls)
  ∧ get_song_rating "s1" (submit_ratings example_calls example_store) =
      Ok (mkRatingResponse "s1" (9 # 2) 2).
Proof.
  assert (He : song_exists "s1" example_store) by by_decision.
  assert (Hv : Forall valid_rating (values_for "s1" example_calls))
    by by_decision.
  split; [exact He | split; [reflexivity | split; [exact Hv|]]].
  exact (proj1 (rating_after_submissions "s1" example_calls example_store
                  He eq_refl Hv)).
Defined.

Lemma rate_song_stores_mean sid v db s :
  accepted sid v db →
  s ∈ songs (rate_song sid v db).2 → id s = sid →
  star_rating s = Some (mean (ratings_of sid db ++ [v])).
Proof.
  intros Ha Hs Hid. rewrite rate_song_accepted in Hs by done.
  cbn [snd] in Hs. unfold update_star_rating in Hs; simpl in Hs.
  apply list_elem_of_fmap in Hs as (s0 & -> & _).
  case_decide as Hd; [done|]. by rewrite Hid in Hd.
Qed.

(** C2 (as amended).  After a successful [rate_song], the [star_rating]
    column of the song holds the full-precision mean of the song's logged
    ratings (the double that [AVG] returns), and the response carries
    that stored value rounded to two decimals. *)
Theorem stored_rating_is_unrounded_mean (sid : string) (v : Z)
    (db db' : database) (resp : RatingResponse) :
  rate_song sid v db = (Ok resp, db') →
  song_exists sid db'
  ∧ (∀ s, s ∈ songs db' → id s = sid →
       star_rating s = Some (mean (ratings_of sid db')))
  ∧ average_rating resp = py_round (mean (ratings_of sid db')) 2.
Proof.
  intros H. pose proof (rate_song_Ok_accepted _ _ _ _ _ H) as Ha.
  rewrite rate_song_accepted in H by done. injection H as <- <-.
  rewrite ratings_of_update, ratings_of_insert, decide_True by done.
  split; [|split].
  - unfold song_exists. rewrite song_ids_update. apply Ha.
  - intros s Hs Hid.
    assert (Hs' : s ∈ songs (rate_song sid v db).2)
      by (by rewrite rate_song_accepted).
    apply (rate_song_stores_mean _ _ _ _ Ha Hs' Hid).
  - reflexivity.
Qed.

Lemma stored_rating_is_unrounded_mean_witness :
  rate_song "s1" 2 twice_rated_store =
    (Ok (mkRatingResponse "s1" (133 # 100) 3),
     mkDb [set_star_rating (Some (6004799503160661 # 4503599627370496))
             (bare_song "s1" "3AM")]
          [mkRating "s1" 1; mkRating "s1" 1; mkRating "s1" 2])
  ∧ average_rating (mkRatingResponse "s1" (133 # 100) 3) =
      py_round (mean [1; 1; 2]) 2.
Proof.
  assert (E : rate_song "s1" 2 twice_rated_store =
    (Ok (mkRatingResponse "s1" (133 # 100) 3),
     mkDb [set_star_rating (Some (6004799503160661 # 4503599627370496))
             (bare_song "s1" "3AM")]
          [mkRating "s1" 1; mkRating "s1" 1; mkRating "s1" 2]))
    by (vm_compute; reflexivity).
  split; [exact E|].
  exact (proj2 (proj2 (stored_rating_is_unrounded_mean "s1" 2 twice_rated_store
                         _ _ E))).
Defined.

(** C2 as stated fails: a song rated 1 and 1 is rated 2; [star_rating]
    is set to 1.3333333333333333 (the double nearest to 4/3, which is
    6004799503160661 / 2^52) and the response carries 1.33, a different
    number. *)
Lemma stored_rating_differs_from_returned :
  rate_song "s1" 2 twice_rated_store =
    (Ok (mkRatingResponse "s1" (133 # 100) 3),
     mkDb [set_star_rating (Some (6004799503160661 # 4503599627370496))
             (bare_song "s1" "3AM")]
          [mkRating "s1" 1; mkRating "s1" 1; mkRating "s1" 2])
  ∧ ¬ (6004799503160661 # 4503599627370496 == 133 # 100)%Q.
Proof. split; [by vm_compute | by vm_compute]. Qed.

(** C5.  For a song id that is not in the song table, [rate_song] (with a
    rating that passes validation) and [get_song_rating] answer 404, and
    [rate_song] leaves the database as it was: no row is added to
    [song_ratings] and no song row changes. *)
Theorem unknown_song_not_found (sid : string) (db : database) :
  ¬ song_exists sid db →
  (∀ v, valid_rating v →
     rate_song sid v db = (HTTPException 404 "Song not found", db))
  ∧ (∀ v, (rate_song sid v db).2 = db)
  ∧ get_song_rating sid db = HTTPException 404 "Song not found".
Proof.
  intros Hn. pose proof (proj2 (select_song_None sid db) Hn) as E.
  split; [|split].
  - intros v Hv. unfold rate_song. by rewrite valid_rating_check, E.
  - intros v. apply rate_song_rejected. unfold accepted. tauto.
  - unfold get_song_rating. by rewrite E.
Qed.

Lemma unknown_song_not_found_witness :
  ¬ song_exists "nobody" example_store
  ∧ rate_song "nobody" 5 example_store =
      (HTTPException 404 "Song not found", example_store)
  ∧ get_song_rating "nobody" example_store =
      HTTPException 404 "Song not found".
Proof.
  assert (Hn : ¬ song_exists "nobody" example_store)
    by by_decision.
  destruct (unknown_song_not_found "nobody" example_store Hn) as (H1 & _ & H3).
  split; [exact Hn | split; [|exact H3]].
  apply H1. by_decision.
Defined.

(** C7.  For a song that exists and has no row in [song_ratings],
    [get_song_rating] succeeds with [average_rating = 0.0] and
    [total_ratings = 0]. *)
Theorem unrated_song_reads_zero (sid : string) (db : database) :
  song_exists sid db →
  ratings_of sid db = [] →
  get_song_rating sid db = Ok (mkRatingResponse sid 0%Q 0).
Proof.
  intros He H0. rewrite get_song_rating_exists by done. by rewrite H0.
Qed.

Lemma unrated_song_reads_zero_witness :
  song_exists "s2" example_store
  ∧ ratings_of "s2" example_store = []
  ∧ get_song_rating "s2" example_store = Ok (mkRatingResponse "s2" 0%Q 0).
Proof.
  assert (He : song_exists "s2" example_store) by by_decision.
  split; [exact He | split; [reflexivity|]].
  exact (unrated_song_reads_zero "s2" example_store He eq_refl).
Defined.

(** ** Ordering by title *)

#[local] Instance title_le_trans : Transitive title_le.
Proof. intros a b c. unfold title_le. apply transitivity. Qed.

Lemma leb_false_title_le (x y : Song) :
  String.leb (title x) (title y) = false → title_le y x ∧ title y ≠ title x.
Proof.
  intros H. split.
  - unfold title_le, String.le.
    destruct (String.leb_total (title x) (title y)) as [E|E];
      [congruence | by rewrite E].
  - intros E. rewrite E in H.
    pose proof (reflexivity (R := String.le) (title x)) as Hr.
    unfold String.le in Hr. by rewrite H in Hr.
Qed.

Lemma insert_by_title_Permutation (x : Song) (l : list Song) :
  insert_by_title x l ≡ₚ x :: l.
Proof.
  induction l as [|y l IH]; simpl; [done|].
  destruct (String.leb (title x) (title y)); [done|].
  rewrite IH. apply Permutation_swap.
Qed.

Lemma order_by_title_Permutation (l : list Song) : order_by_title l ≡ₚ l.
Proof.
  induction l as [|x l IH]; simpl; [done|].
  by rewrite insert_by_title_Permutation, IH.
Qed.

Lemma order_by_title_length (l : list Song) :
  length (order_by_title l) = length l.
Proof. by rewrite order_by_title_Permutation. Qed.

Lemma insert_by_title_sorted (x : Song) (l : list Song) :
  StronglySorted title_le l → StronglySorted title_le (insert_by_title x l).
Proof.
  induction 1 as [|y l Hl IH Hy]; simpl.
  - by repeat constructor.
  - destruct (String.leb (title x) (title y)) eqn:E.
    + assert (Hxy : title_le x y) by (unfold title_le, String.le; by rewrite E).
      constructor; [by constructor|].
      constructor; [done|].
      eapply Forall_impl; [exact Hy|]. intros z Hz. by etrans.
    + apply leb_false_title_le in E as [Hyx _].
      constructor; [done|].
      rewrite insert_by_title_Permutation. by constructor.
Qed.

Lemma order_by_title_sorted (l : list Song) :
  StronglySorted title_le (order_by_title l).
Proof.
  induction l as [|x l IH]; simpl; [constructor|].
  by apply insert_by_title_sorted.
Qed.

Lemma insert_by_title_stable (t : string) (x : Song) (l : list Song) :
  filter (λ s, title s = t) (insert_by_title x l) =
  filter (λ s, title s = t) (x :: l).
Proof.
  induction l as [|y l IH]; simpl; [done|].
  destruct (String.leb (title x) (title y)) eqn:E; [done|].
  apply leb_false_title_le in E as [_ Hne].
  rewrite filter_cons, IH, !filter_cons.
  repeat case_decide; congruence.
Qed.

(** Rows that share a title come out in the order in which they are
    stored. *)
Lemma order_by_title_stable (t : string) (l : list Song) :
  filter (λ s, title s = t) (order_by_title l) = filter (λ s, title s = t) l.
Proof.
  induction l as [|x l IH]; simpl; [done|].
  by rewrite insert_by_title_stable, !filter_cons, IH.
Qed.

Lemma StronglySorted_take_drop {A} (R : relation A) (n m : nat) (l : list A) :
  StronglySorted R l → StronglySorted R (take n (drop m l)).
Proof.
  intros H. rewrite <- (take_drop m l) in H.
  apply StronglySorted_app_1_r in H.
  rewrite <- (take_drop n (drop m l)) in H.
  by apply StronglySorted_app_1_l in H.
Qed.

(** ** Pagination *)

Lemma total_pages_is_ceil (total per_page : Z) :
  0 < per_page → is_ceil_div ((total + per_page - 1) / per_page) total per_page.
Proof.
  intros Hp. unfold is_ceil_div.
  pose proof (Z.div_mod (total + per_page - 1) per_page ltac:(lia)) as Hdm.
  pose proof (Z.mod_pos_bound (total + per_page - 1) per_page Hp) as Hmod.
  nia.
Qed.

Lemma get_all_songs_in_range (page per_page : Z) (db : database) :
  valid_page page per_page →
  (page - 1) * per_page ≤ sqlite_int64_max →
  get_all_songs page per_page db =
    Ok (mkSongResponse
          (take (Z.to_nat per_page)
             (drop (Z.to_nat ((page - 1) * per_page))
                (order_by_title (songs db))))
          (Z.of_nat (length (songs db))) page per_page
          ((Z.of_nat (length (songs db)) + per_page - 1) / per_page)).
Proof.
  intros (Hp & Hpp1 & Hpp2) Hoff. unfold get_all_songs.
  replace (1 <=? page) with true by (symmetry; by apply Z.leb_le).
  replace (1 <=? per_page) with true by (symmetry; by apply Z.leb_le).
  replace (per_page <=? 100) with true by (symmetry; by apply Z.leb_le).
  cbn [negb orb andb].
  replace (sqlite_int64_max <? (page - 1) * per_page) with false
    by (symmetry; apply Z.ltb_ge; lia).
  unfold limit_offset.
  replace (per_page <? 0) with false by (symmetry; apply Z.ltb_ge; lia).
  reflexivity.
Qed.

(** The slice served by [get_all_songs] for a page whose offset SQLite
    can bind: at most [per_page] rows of the title-ordered table from
    [offset = (page - 1) * per_page] on, none when the offset is at or
    past the end. *)
Lemma get_all_songs_slice (page per_page : Z) (db : database) :
  valid_page page per_page →
  (page - 1) * per_page ≤ sqlite_int64_max →
  ∃ r, get_all_songs page per_page db = Ok r
    ∧ resp_songs r =
        take (Z.to_nat per_page)
          (drop (Z.to_nat ((page - 1) * per_page)) (order_by_title (songs db)))
    ∧ Z.of_nat (length (resp_songs r)) ≤ per_page
    ∧ (total r ≤ (page - 1) * per_page → resp_songs r = []).
Proof.
  intros Hv Hoff. eexists. split; [by apply get_all_songs_in_range|].
  cbn [resp_songs total]. split; [done|]. split.
  - rewrite length_take. destruct Hv as (_ & ? & _). lia.
  - intros Ht. rewrite drop_ge; [by rewrite take_nil|].
    rewrite order_by_title_length. lia.
Qed.

(** The page count is the bare ceiling.  For [page >= 1], [per_page] in
    1..100 and an offset that SQLite can bind, [get_all_songs] answers
    [total_pages = ceil(total / per_page)]; this is at least 1 exactly
    when the table is not empty, and for the empty table the answer is
    [songs = [], total = 0, total_pages = 0]. *)
Theorem total_pages_is_ceiling (page per_page : Z) (db : database) :
  valid_page page per_page →
  (page - 1) * per_page ≤ sqlite_int64_max →
  ∃ r, get_all_songs page per_page db = Ok r
    ∧ total r = Z.of_nat (length (songs db))
    ∧ is_ceil_div (total_pages r) (total r) per_page
    ∧ (1 ≤ total_pages r ↔ 1 ≤ total r)
    ∧ (songs db = [] → r = mkSongResponse [] 0 page per_page 0).
Proof.
  intros Hv Hoff. eexists. split; [by apply get_all_songs_in_range|].
  cbn [resp_songs total total_pages].
  destruct Hv as (Hp & Hpp1 & Hpp2).
  pose proof (total_pages_is_ceil (Z.of_nat (length (songs db))) per_page
                ltac:(lia)) as Hc.
  split; [done|]. split; [done|]. split.
  - unfold is_ceil_div in Hc. split; intros; nia.
  - intros ->. cbn [order_by_title foldr length Z.of_nat].
    rewrite drop_nil, take_nil. change (Z.of_nat 0) with 0.
    replace ((0 + per_page - 1) / per_page) with 0; [reflexivity|].
    symmetry. apply Z.div_small. lia.
Qed.

Lemma total_pages_is_ceiling_witness :
  valid_page 1 10
  ∧ (1 - 1) * 10 ≤ sqlite_int64_max
  ∧ ∃ r, get_all_songs 1 10 (mkDb [] []) = Ok r
      ∧ total r = 0
      ∧ is_ceil_div (total_pages r) (total r) 10
      ∧ (1 ≤ total_pages r ↔ 1 ≤ total r)
      ∧ (@nil Song = [] → r = mkSongResponse [] 0 1 10 0).
Proof.
  assert (Hv : valid_page 1 10) by (unfold valid_page; lia).
  assert (Hoff : (1 - 1) * 10 ≤ sqlite_int64_max) by (by vm_compute).
  split; [exact Hv | split; [exact Hoff|]].
  exact (total_pages_is_ceiling 1 10 (mkDb [] []) Hv Hoff).
Defined.

(** C3 at the failing input.  On the empty table, page 1 of 10 is
    answered with [total = 0] and [total_pages = 0], where the claim, and
    the repository's tests of the pagination metadata, have
    [total_pages >= 1]: the handler computes the ceiling and never clamps
    it from below. *)
Theorem empty_store_has_zero_pages :
  get_all_songs 1 10 (mkDb [] []) = Ok (mkSongResponse [] 0 1 10 0)
  ∧ ¬ (1 ≤ total_pages (mkSongResponse [] 0 1 10 0)).
Proof. split; [reflexivity | by vm_compute]. Qed.

(** C6 at the failing input.  With [page = 2^63 + 1] and [per_page = 1]
    the offset is [2^63]; binding it raises, and the request ends in a 500
    whatever the table holds, where the claim has an empty page and
    success. *)
Theorem huge_page_is_server_error (db : database) :
  valid_page (2 ^ 63 + 1) 1
  ∧ get_all_songs (2 ^ 63 + 1) 1 db =
      HTTPException 500 "Internal server error".
Proof. split; [unfold valid_page; lia | reflexivity]. Qed.

(** ** Title search *)

Lemma like_chars_any_run (p l : list string) :
  like_chars ("%" :: p) l =
  like_chars p l || match l with [] => false | _ :: l' => like_chars ("%" :: p) l' end.
Proof. destruct l; reflexivity. Qed.

Lemma like_chars_one (p : list string) (c : string) (l : list string) :
  like_chars ("_" :: p) (c :: l) = like_chars p l.
Proof. reflexivity. Qed.

Lemma like_chars_trailing_any (l : list string) : like_chars ["%"] l = true.
Proof.
  induction l as [|c l IH]; [reflexivity|].
  rewrite like_chars_any_run. by rewrite IH, orb_true_r.
Qed.

Lemma like_chars_any_prefix (p l : list string) :
  like_chars p l = true → like_chars ("%" :: p) l = true.
Proof. intros H. by rewrite like_chars_any_run, H. Qed.

Lemma sql_lower_app (a b : string) :
  sql_lower (a +:+ b) = sql_lower a +:+ sql_lower b.
Proof. induction a as [|c a IH]; simpl; [done | by rewrite IH]. Qed.

(** Queries that differ only in the case of ASCII letters select the same
    rows, and a query that matches no title gives the empty list with
    status 200. *)
Lemma search_ascii_case_insensitive (q1 q2 : string) (db : database) :
  sql_lower q1 = sql_lower q2 →
  search_songs_by_title (Some q1) db = search_songs_by_title (Some q2) db.
Proof.
  intros H. unfold search_songs_by_title, title_like.
  by rewrite !sql_lower_app, H.
Qed.

Lemma search_no_match (q : string) (db : database) :
  (∀ s, s ∈ songs db → title_like q s = false) →
  search_songs_by_title (Some q) db = Ok [].
Proof.
  intros H. unfold search_songs_by_title.
  replace (filter (λ s, title_like q s = true) (songs db)) with (@nil Song);
    [done|].
  symmetry. induction (songs db) as [|s l IH]; [done|].
  rewrite filter_cons, decide_False.
  - apply IH. intros s' Hs'. apply H. by right.
  - rewrite H by left. done.
Qed.

(** C8 at the failing input.  The table holds one song whose title is the
    upper-case accented letter U+00C9.  Searching for that title finds
    it; searching for the same letter in lower case, U+00E9, finds
    nothing: [LOWER] and [LIKE] fold ASCII letters only. *)
Theorem search_non_ascii_case_sensitive :
  search_songs_by_title (Some E_acute) accented_store =
    Ok [bare_song "s1" E_acute]
  ∧ search_songs_by_title (Some e_acute) accented_store = Ok [].
Proof. split; reflexivity. Qed.

Lemma title_like_percent (s : Song) : title_like "%" s = true.
Proof.
  unfold title_like, sql_like.
  change (utf8_chars (c_string (sql_lower ("%" +:+ "%" +:+ "%"))))
    with ["%"; "%"; "%"].
  do 2 apply like_chars_any_prefix. apply like_chars_trailing_any.
Qed.

(** C9.  The query goes into the LIKE pattern unescaped, so [%] and [_]
    in it are wildcards: the query [%] returns every song of every table,
    and the query [a_c] returns a song titled [abc], which does not
    contain [a_c]. *)
Theorem search_wildcards_unescaped :
  (∀ db, search_songs_by_title (Some "%") db = Ok (order_by_title (songs db)))
  ∧ search_songs_by_title (Some "a_c") abc_store = Ok [bare_song "s1" "abc"]
  ∧ ¬ is_substring "a_c" (title (bare_song "s1" "abc"))
  ∧ ¬ is_substring "%" (title (bare_song "s1" "abc")).
Proof.
  split; [|split; [reflexivity|split]].
  - intros db. unfold search_songs_by_title. do 2 f_equal.
    induction (songs db) as [|s l IH]; [done|].
    by rewrite filter_cons, decide_True, IH by apply title_like_percent.
  - intros (a & b & H). simpl in H.
    destruct a as [|? [|? [|? [|? a]]]]; simpl in H; try discriminate H.
  - intros (a & b & H). simpl in H.
    destruct a as [|? [|? [|? [|? a]]]]; simpl in H; try discriminate H.
Qed.

(** ** The order of both listings *)

(** C4 (as amended).  Both listings come in ascending title order:
    [get_all_songs] serves a slice of the title-ordered table and
    [search_songs_by_title] the title-ordered matches; both depend on the
    rows of [songs] only, so the same rows give the same sequence.  No
    second key is applied: the ordered table is a rearrangement of the
    stored one in which songs with the same title keep the order in which
    the table stores them. *)
Theorem listings_ordered_by_title_only (db : database) :
  (∀ page per_page,
     valid_page page per_page →
     (page - 1) * per_page ≤ sqlite_int64_max →
     ∃ r, get_all_songs page per_page db = Ok r
       ∧ resp_songs r =
           take (Z.to_nat per_page)
             (drop (Z.to_nat ((page - 1) * per_page))
                (order_by_title (songs db)))
       ∧ StronglySorted title_le (resp_songs r))
  ∧ (∀ q, ∃ items,
       search_songs_by_title (Some q) db = Ok items
       ∧ items =
           order_by_title (filter (λ s, title_like q s = true) (songs db))
       ∧ StronglySorted title_le items)
  ∧ (∀ db2 page per_page q,
       songs db2 = songs db →
       get_all_songs page per_page db2 = get_all_songs page per_page db
       ∧ search_songs_by_title q db2 = search_songs_by_title q db)
  ∧ StronglySorted title_le (order_by_title (songs db))
  ∧ order_by_title (songs db) ≡ₚ songs db
  ∧ (∀ t, filter (λ s, title s = t) (order_by_title (songs db)) =
          filter (λ s, title s = t) (songs db)).
Proof.
  split; [|split; [|split; [|split; [|split]]]].
  - intros page per_page Hv Hoff.
    eexists. split; [by apply get_all_songs_in_range|].
    cbn [resp_songs]. split; [done|].
    apply StronglySorted_take_drop, order_by_title_sorted.
  - intros q. eexists. split; [reflexivity|]. split; [done|].
    apply order_by_title_sorted.
  - intros db2 page per_page q Hsame.
    unfold get_all_songs, search_songs_by_title. by rewrite Hsame.
  - apply order_by_title_sorted.
  - apply order_by_title_Permutation.
  - intros t. apply order_by_title_stable.
Qed.

Lemma listings_ordered_by_title_only_witness :
  valid_page 1 10
  ∧ (1 - 1) * 10 ≤ sqlite_int64_max
  ∧ ∃ r, get_all_songs 1 10 tie_store = Ok r
      ∧ resp_songs r =
          take (Z.to_nat 10)
            (drop (Z.to_nat ((1 - 1) * 10)) (order_by_title (songs tie_store)))
      ∧ StronglySorted title_le (resp_songs r).
Proof.
  assert (Hv : valid_page 1 10) by (unfold valid_page; lia).
  assert (Hoff : (1 - 1) * 10 ≤ sqlite_int64_max) by (by vm_compute).
  split; [exact Hv | split; [exact Hoff|]].
  exact (proj1 (listings_ordered_by_title_only tie_store) 1 10 Hv Hoff).
Defined.

(** C4 as stated fails: two songs titled [Same], stored with id [b]
    before id [a], are listed and found in that order, which is not
    ascending in id. *)
Lemma equal_titles_not_ordered_by_id :
  get_all_songs 1 10 tie_store =
    Ok (mkSongResponse [bare_song "b" "Same"; bare_song "a" "Same"] 2 1 10 1)
  ∧ search_songs_by_title (Some "same") tie_store =
      Ok [bare_song "b" "Same"; bare_song "a" "Same"]
  ∧ ¬ Sorted title_then_id_le [bare_song "b" "Same"; bare_song "a" "Same"].
Proof.
  split; [reflexivity | split; [reflexivity|]].
  by_decision.
Qed.

(** ** Ingestion *)

Lemma normalize_data_star_rating data normalized (r : record) :
  normalize_data data = Some normalized →
  r ∈ normalized →
  record_get "star_rating" r = None.
Proof.
  unfold normalize_data. destruct data as [|[name first] data]; [done|].
  intros [= <-] Hr. apply list_elem_of_fmap in Hr as (i & -> & _).
  unfold record_get. by rewrite lookup_insert_eq.
Qed.

Lemma song_of_record_fields (r : record) (row : Song) :
  song_of_record r = Some row →
  record_get "id" r = Some (JStr (id row))
  ∧ record_get "title" r = Some (JStr (title row))
  ∧ (record_get "star_rating" r = None → star_rating row = None).
Proof.
  unfold song_of_record. intros H.
  destruct (record_get "id" r) as [[| |i]|]; try done.
  destruct (record_get "title" r) as [[| |t]|]; try done.
  cbn [bind_text mbind option_bind] in H.
  repeat (match type of H with
          | context [bind_param ?v] =>
              destruct (bind_param v); [|done]; cbn [mbind option_bind] in H
          end).
  destruct (record_get "star_rating" r) as [[| |]|];
    cbn [bind_real mbind option_bind] in H;
    repeat case_match; simplify_eq/=; done.
Qed.

Lemma insert_songs_ratings recs db db' :
  insert_songs recs db = Some db' → song_ratings db' = song_ratings db.
Proof.
  revert db. induction recs as [|r recs IH]; intros db H; simpl in H.
  - by injection H as <-.
  - destruct (song_of_record r) as [row|]; [|done]. simpl in H.
    by rewrite (IH _ H).
Qed.

Lemma insert_or_replace_rows row db s :
  s ∈ songs (insert_or_replace row db) ↔
  (s ∈ songs db ∧ id s ≠ id row) ∨ s = row.
Proof.
  unfold insert_or_replace; simpl.
  rewrite elem_of_app, list_elem_of_filter, list_elem_of_singleton. tauto.
Qed.

(** After [insert_songs], a stored row either is the row of one of the
    ingested records, or was there before and shares its id with none of
    them. *)
Lemma insert_songs_rows recs db db' s :
  insert_songs recs db = Some db' →
  s ∈ songs db' →
  (∃ r, r ∈ recs ∧ song_of_record r = Some s)
  ∨ (s ∈ songs db
     ∧ ∀ r row, r ∈ recs → song_of_record r = Some row → id row ≠ id s).
Proof.
  revert db. induction recs as [|r recs IH]; intros db H Hs; simpl in H.
  - injection H as <-. right. split; [done|]. intros ? ? Hr.
    by apply elem_of_nil in Hr.
  - destruct (song_of_record r) as [row|] eqn:E; [|done]. simpl in H.
    destruct (IH _ H Hs) as [(r' & Hr' & E')|[Hin Hfresh]].
    + left. exists r'. split; [by right | done].
    + apply insert_or_replace_rows in Hin as [[Hin Hne]| ->].
      * right. split; [done|]. intros r' row' Hr' E'.
        apply elem_of_cons in Hr' as [->|Hr']; [|by eapply Hfresh].
        rewrite E in E'. injection E' as <-. congruence.
      * left. exists r. split; [left | done].
Qed.

Lemma insert_songs_song_exists recs db db' sid :
  insert_songs recs db = Some db' →
  song_exists sid db →
  song_exists sid db'.
Proof.
  revert db. induction recs as [|r recs IH]; intros db H He; simpl in H.
  - by injection H as <-.
  - destruct (song_of_record r) as [row|] eqn:E; [|done]. simpl in H.
    apply (IH _ H). unfold song_exists in *.
    apply list_elem_of_fmap in He as (s & -> & Hs).
    destruct (decide (id s = id row)) as [Heq|Hne].
    + rewrite Heq. apply list_elem_of_fmap. exists row. split; [done|].
      apply insert_or_replace_rows. by right.
    + apply list_elem_of_fmap. exists s. split; [done|].
      apply insert_or_replace_rows. by left.
Qed.

Lemma ratings_of_same_log sid db db' :
  song_ratings db' = song_ratings db → ratings_of sid db' = ratings_of sid db.
Proof. unfold ratings_of. by intros ->. Qed.

(** C10.  Running the ingestion again over a table that already holds a
    song with the ingested id replaces that song's row by the ingested
    one, whose [star_rating] is [None] whatever ratings are logged for
    the id; [song_ratings] is left as it was, so [get_song_rating]
    answers as before from the log, while the stored [star_rating] is no
    longer the mean of the logged ratings (when there are any) until the
    next [rate_song] writes it again. *)
Theorem reingest_resets_star_rating (data : list (string * record))
    (normalized : list record) (r : record) (db db' : database) (sid : string) :
  normalize_data data = Some normalized →
  r ∈ normalized →
  record_get "id" r = Some (JStr sid) →
  song_exists sid db →
  process data db = Some db' →
  song_ratings db' = song_ratings db
  ∧ song_exists sid db'
  ∧ (∀ s, s ∈ songs db' → id s = sid →
       star_rating s = None
       ∧ ∃ r', r' ∈ normalized ∧ song_of_record r' = Some s)
  ∧ get_song_rating sid db' = get_song_rating sid db
  ∧ (ratings_of sid db ≠ [] →
     ∀ s, s ∈ songs db' → id s = sid →
       star_rating s ≠ sql_avg (ratings_of sid db'))
  ∧ (∀ v s, valid_rating v →
       s ∈ songs (rate_song sid v db').2 → id s = sid →
       star_rating s = Some (mean (ratings_of sid db ++ [v]))).
Proof.
  intros Hn Hr Hid He Hp. unfold process in Hp. rewrite Hn in Hp. simpl in Hp.
  pose proof (insert_songs_ratings _ _ _ Hp) as Hlog.
  pose proof (insert_songs_song_exists _ _ _ _ Hp He) as He'.
  pose proof (ratings_of_same_log sid _ _ Hlog) as Hsame.
  assert (Hrow : ∀ s, s ∈ songs db' → id s = sid →
            star_rating s = None
            ∧ ∃ r', r' ∈ normalized ∧ song_of_record r' = Some s).
  { intros s Hs Hsid.
    destruct (insert_songs_rows _ _ _ _ Hp Hs) as [(r' & Hr' & E)|[_ Hfresh]].
    - split; [|by eauto].
      apply (song_of_record_fields _ _ E).
      by eapply normalize_data_star_rating.
    - exfalso.
      assert (Hsome : is_Some (song_of_record r)).
      { clear -Hp Hr. revert db Hp.
        induction Hr as [r recs|r r0 recs Hr IH]; intros db Hp; simpl in Hp.
        - destruct (song_of_record r); [by eauto | done].
        - destruct (song_of_record r0); [by eapply IH | done]. }
      destruct Hsome as [row E].
      apply (Hfresh _ _ Hr E).
      destruct (song_of_record_fields _ _ E) as (Hi & _ & _).
      rewrite Hid in Hi. injection Hi as <-. done. }
  split; [done|]. split; [done|]. split; [done|]. split; [|split].
  - by rewrite !get_song_rating_exists, Hsame by done.
  - intros Hne s Hs Hsid. destruct (Hrow s Hs Hsid) as [-> _].
    rewrite Hsame. by destruct (ratings_of sid db).
  - intros v s Hv Hs Hsid.
    assert (Ha : accepted sid v db') by done.
    by rewrite (rate_song_stores_mean _ _ _ _ Ha Hs Hsid), Hsame.
Qed.

Lemma reingest_resets_star_rating_witness :
  normalize_data reingest_data = Some [reingest_record]
  ∧ reingest_record ∈ [reingest_record]
  ∧ record_get "id" reingest_record = Some (JStr "s1")
  ∧ song_exists "s1" rated_store
  ∧ process reingest_data rated_store = Some reingested_store
  ∧ song_ratings reingested_store = song_ratings rated_store
  ∧ get_song_rating "s1" reingested_store = get_song_rating "s1" rated_store.
Proof.
  assert (Hn : normalize_data reingest_data = Some [reingest_record])
    by (vm_compute; reflexivity).
  assert (Hr : reingest_record ∈ [reingest_record]) by left.
  assert (Hid : record_get "id" reingest_record = Some (JStr "s1"))
    by (vm_compute; reflexivity).
  assert (He : song_exists "s1" rated_store)
    by by_decision.
  assert (Hp : process reingest_data rated_store = Some reingested_store)
    by (vm_compute; reflexivity).
  destruct (reingest_resets_star_rating _ _ _ _ _ _ Hn Hr Hid He Hp)
    as (H1 & _ & _ & H4 & _).
  repeat (split; [assumption|]). assumption.
Defined.

(** * Further properties of the handlers and of the ingestion *)

(** ** Rating: what a submission changes and what it keeps *)

Lemma accepted_same_songs sid v db db' :
  id <$> songs db' = id <$> songs db → accepted sid v db' ↔ accepted sid v db.
Proof. intros H. unfold accepted, song_exists. by rewrite H. Qed.

Lemma rate_song_ids sid v db :
  id <$> songs (rate_song sid v db).2 = id <$> songs db.
Proof.
  destruct (decide (accepted sid v db)) as [Ha|Ha].
  - rewrite rate_song_accepted by done. cbn [snd]. by rewrite song_ids_update.
  - by rewrite rate_song_rejected.
Qed.

Lemma rate_song_log sid v db :
  song_ratings (rate_song sid v db).2 =
  song_ratings db ++ accepted_rows [(sid, v)] db.
Proof.
  unfold accepted_rows. rewrite filter_cons, filter_nil. cbn [fst snd].
  destruct (decide (accepted sid v db)) as [Ha|Ha].
  - by rewrite rate_song_accepted.
  - rewrite rate_song_rejected by done. by rewrite app_nil_r.
Qed.

Lemma set_star_rating_twice x y s :
  set_star_rating x (set_star_rating y s) = set_star_rating x s.
Proof. reflexivity. Qed.

Lemma rate_song_rows sid v db :
  set_star_rating None <$> songs (rate_song sid v db).2 =
  set_star_rating None <$> songs db.
Proof.
  destruct (decide (accepted sid v db)) as [Ha|Ha].
  - rewrite rate_song_accepted by done. cbn [snd].
    unfold update_star_rating; cbn [songs insert_rating].
    rewrite <- list_fmap_compose. apply list_fmap_ext.
    intros _ s _. simpl. by case_decide.
  - by rewrite rate_song_rejected.
Qed.

Lemma submit_ratings_rows (calls : list (string * Z)) (db : database) :
  set_star_rating None <$> songs (submit_ratings calls db) =
  set_star_rating None <$> songs db.
Proof.
  revert db. induction calls as [|[sid v] calls IH]; intros db; [done|].
  change (submit_ratings ((sid, v) :: calls) db)
    with (submit_ratings calls (rate_song sid v db).2).
  by rewrite IH, rate_song_rows.
Qed.

Lemma submit_ratings_log (calls : list (string * Z)) (db : database) :
  song_ratings (submit_ratings calls db) =
  song_ratings db ++ accepted_rows calls db.
Proof.
  revert db. induction calls as [|[sid v] calls IH]; intros db.
  - unfold accepted_rows. simpl. by rewrite app_nil_r.
  - change (submit_ratings ((sid, v) :: calls) db)
      with (submit_ratings calls (rate_song sid v db).2).
    rewrite IH, rate_song_log, <- app_assoc. f_equal.
    unfold accepted_rows. rewrite <- fmap_app. f_equal.
    rewrite (filter_cons _ (sid, v) calls), filter_cons, filter_nil.
    cbn [fst snd].
    assert (Hsame : filter (λ c, accepted c.1 c.2 (rate_song sid v db).2) calls
                    = filter (λ c, accepted c.1 c.2 db) calls).
    { apply list_filter_iff. intros c.
      apply accepted_same_songs, rate_song_ids. }
    rewrite Hsame. by case_decide.
Qed.

(** X2.  A run of rating submissions never adds, removes or reorders
    songs and never changes a column of a song other than [star_rating];
    it never rewrites or deletes a logged rating: the log grows at its
    end by exactly the calls that were accepted, in call order, each of
    them a rating in 1..5 for a song that exists. *)
Theorem submit_ratings_frame (calls : list (string * Z)) (db : database) :
  set_star_rating None <$> songs (submit_ratings calls db) =
    set_star_rating None <$> songs db
  ∧ song_ratings (submit_ratings calls db) =
      song_ratings db ++ accepted_rows calls db
  ∧ Forall (λ r, valid_rating (rating_value r)
                 ∧ song_exists (rating_song_id r) db)
      (accepted_rows calls db).
Proof.
  split; [apply submit_ratings_rows|]. split; [apply submit_ratings_log|].
  unfold accepted_rows. apply Forall_fmap, Forall_forall.
  intros c Hc. apply list_elem_of_filter in Hc as [Hc _]. exact Hc.
Qed.

(** X1.  A rating outside 1..5 is refused with 422 before the song is
    looked up, for known and unknown song ids alike, and nothing is
    written. *)
Theorem invalid_rating_rejected_first (sid : string) (v : Z) (db : database) :
  ¬ valid_rating v →
  rate_song sid v db = (RequestValidationError, db)
  ∧ ∀ calls, Forall (λ c, ¬ valid_rating c.2) calls →
      submit_ratings calls db = db.
Proof.
  intros Hv. split.
  - unfold rate_song. by rewrite invalid_rating_check.
  - intros calls Hc. induction Hc as [|[s w] calls Hw _ IH]; [done|].
    change (submit_ratings ((s, w) :: calls) db)
      with (submit_ratings calls (rate_song s w db).2).
    rewrite rate_song_rejected; [done|]. unfold accepted. tauto.
Qed.

Lemma invalid_rating_rejected_first_witness :
  ¬ valid_rating 6
  ∧ rate_song "nobody" 6 example_store = (RequestValidationError, example_store)
  ∧ rate_song "s1" 0 example_store = (RequestValidationError, example_store).
Proof.
  assert (H6 : ¬ valid_rating 6) by by_decision.
  assert (H0 : ¬ valid_rating 0) by by_decision.
  split; [exact H6 | split].
  - exact (proj1 (invalid_rating_rejected_first "nobody" 6 example_store H6)).
  - exact (proj1 (invalid_rating_rejected_first "s1" 0 example_store H0)).
Defined.

(** X3.  What a successful [rate_song] returns is what [get_song_rating]
    answers for the same song right afterwards. *)
Theorem rate_song_then_get (sid : string) (v : Z) (db db' : database)
    (resp : RatingResponse) :
  rate_song sid v db = (Ok resp, db') →
  get_song_rating sid db' = Ok resp.
Proof.
  intros H. pose proof (rate_song_Ok_accepted _ _ _ _ _ H) as Ha.
  rewrite rate_song_accepted in H by done. injection H as <- <-.
  rewrite get_song_rating_exists.
  - by rewrite ratings_of_update, ratings_of_insert, decide_True.
  - unfold song_exists. rewrite song_ids_update. apply Ha.
Qed.

Lemma rate_song_then_get_witness :
  rate_song "s1" 4 example_store =
    (Ok (mkRatingResponse "s1" 4%Q 1), rated_store)
  ∧ get_song_rating "s1" rated_store = Ok (mkRatingResponse "s1" 4%Q 1).
Proof.
  assert (H : rate_song "s1" 4 example_store =
                (Ok (mkRatingResponse "s1" 4%Q 1), rated_store)) by reflexivity.
  split; [exact H|].
  exact (rate_song_then_get "s1" 4 example_store rated_store _ H).
Defined.

Lemma get_song_rating_other sid sid' v db :
  sid' ≠ sid →
  get_song_rating sid' (rate_song sid v db).2 = get_song_rating sid' db.
Proof.
  intros Hne. unfold get_song_rating.
  rewrite rate_song_ratings_of, decide_False, app_nil_r
    by (intros [_ ?]; congruence).
  destruct (select_song sid' db) as [s|] eqn:E.
  - assert (He : song_exists sid' db).
    { destruct (decide (song_exists sid' db)) as [|Hn]; [done|].
      apply select_song_None in Hn. congruence. }
    apply (rate_song_song_exists sid' sid v) in He.
    by destruct (select_song_Some _ _ He) as (s' & -> & _).
  - apply select_song_None in E.
    assert (Hn : ¬ song_exists sid' (rate_song sid v db).2)
      by (by rewrite rate_song_song_exists).
    apply select_song_None in Hn. by rewrite Hn.
Qed.

(** X4.  Rating an existing song with a valid value succeeds, raises the
    song's [total_ratings] by exactly one, and leaves what
    [get_song_rating] answers for every other song id as it was. *)
Theorem rate_song_counts_one (sid : string) (v : Z) (db : database) :
  song_exists sid db →
  valid_rating v →
  ∃ resp db',
    rate_song sid v db = (Ok resp, db')
    ∧ song_id resp = sid
    ∧ (∀ r0, get_song_rating sid db = Ok r0 →
         total_ratings resp = total_ratings r0 + 1)
    ∧ (∀ sid', sid' ≠ sid →
         get_song_rating sid' db' = get_song_rating sid' db).
Proof.
  intros He Hv. assert (Ha : accepted sid v db) by done.
  eexists _, _. split; [by apply rate_song_accepted|].
  split; [done|]. split.
  - intros r0. rewrite get_song_rating_exists by done. intros [= <-].
    cbn [total_ratings]. rewrite length_app. simpl. lia.
  - intros sid' Hne.
    pose proof (get_song_rating_other sid sid' v db Hne) as H.
    by rewrite rate_song_accepted in H.
Qed.

Lemma rate_song_counts_one_witness :
  song_exists "s1" rated_store
  ∧ valid_rating 5
  ∧ ∃ resp db',
      rate_song "s1" 5 rated_store = (Ok resp, db')
      ∧ song_id resp = "s1"
      ∧ (∀ r0, get_song_rating "s1" rated_store = Ok r0 →
           total_ratings resp = total_ratings r0 + 1)
      ∧ (∀ sid', sid' ≠ "s1" →
           get_song_rating sid' db' = get_song_rating sid' rated_store).
Proof.
  assert (He : song_exists "s1" rated_store) by by_decision.
  assert (Hv : valid_rating 5) by by_decision.
  split; [exact He | split; [exact Hv|]].
  exact (rate_song_counts_one "s1" 5 rated_store He Hv).
Defined.

Lemma sum_Z_bounds (l : list Z) :
  Forall valid_rating l →
  Z.of_nat (length l) ≤ sum_Z l ≤ 5 * Z.of_nat (length l).
Proof.
  induction 1 as [|v l [? ?] _ IH]; simpl; [lia|].
  unfold sum_Z in *. simpl. lia.
Qed.

(** The double [AVG] returns over ratings in 1..5 is within rounding
    error of the interval from 1 to 5. *)
Lemma mean_bounds (l : list Z) :
  Forall valid_rating l → l ≠ [] → (199 # 200 < mean l < 1001 # 200)%Q.
Proof.
  intros Hv Hl. pose proof (sum_Z_bounds l Hv) as Hs.
  assert (Hn : 1 ≤ Z.of_nat (length l))
    by (destruct l; [done | simpl length; lia]).
  pose proof (binary64_quotient_close _ _ Hn Hs) as Hc.
  fold (mean l) in Hc. unfold binary64_eps in Hc.
  apply Qabs_Qle_condition in Hc as [Hc1 Hc2].
  destruct Hs as [Hs1 Hs5].
  rewrite Zle_Qle in Hn, Hs1, Hs5. rewrite inject_Z_mult in Hs5.
  change (inject_Z 1) with 1%Q in Hn. change (inject_Z 5) with 5%Q in Hs5.
  set (S := inject_Z (sum_Z l)) in *.
  set (N := inject_Z (Z.of_nat (length l))) in *.
  assert (Hr1 : (1 <= S / N)%Q) by (apply Qle_shift_div_l; lra).
  assert (Hr5 : (S / N <= 5)%Q) by (apply Qle_shift_div_r; lra).
  set (r := (S / N)%Q) in *. clearbody r. split; lra.
Qed.

Lemma py_round_bounds (x : Q) :
  (199 # 200 < x < 1001 # 200)%Q → (1 <= py_round x 2 <= 5)%Q.
Proof.
  intros [H1 H5].
  pose proof (round_half_even_close (x * inject_Z (10 ^ 2))) as Hc.
  unfold py_round. cbv zeta. rewrite Qred_correct.
  set (k := round_half_even (x * inject_Z (10 ^ 2))) in *.
  change (inject_Z (10 ^ 2)) with 100%Q in Hc.
  apply Qabs_Qle_condition in Hc as [Hlo Hhi].
  assert (Hk1 : (99 < inject_Z k)%Q) by lra.
  assert (Hk5 : (inject_Z k < 501)%Q) by lra.
  unfold Qle, Qlt in Hk1, Hk5 |- *. cbn in Hk1, Hk5 |- *. lia.
Qed.

(** X5.  While the log holds only ratings in 1..5, [get_song_rating] on
    an existing song answers either 0.0 with count 0 (nothing logged) or
    an average between 1 and 5 with a count of at least 1. *)
Theorem average_rating_in_range (sid : string) (db : database) :
  log_ok db →
  song_exists sid db →
  ∃ r, get_song_rating sid db = Ok r
    ∧ ((total_ratings r = 0 ∧ average_rating r = 0%Q)
       ∨ (1 ≤ total_ratings r ∧ (1 <= average_rating r <= 5)%Q)).
Proof.
  intros Hlog He. eexists. split; [by apply get_song_rating_exists|].
  cbn [total_ratings average_rating].
  destruct (ratings_of sid db) as [|v l] eqn:E; [by left|].
  right. split; [simpl; lia|].
  apply py_round_bounds, mean_bounds; [|done].
  rewrite <- E. unfold ratings_of. apply Forall_fmap.
  apply Forall_forall. intros r Hr. apply list_elem_of_filter in Hr as [_ Hr].
  unfold log_ok in Hlog. rewrite Forall_forall in Hlog. by apply Hlog.
Qed.

Lemma average_rating_in_range_witness :
  log_ok rated_store
  ∧ song_exists "s1" rated_store
  ∧ ∃ r, get_song_rating "s1" rated_store = Ok r
      ∧ ((total_ratings r = 0 ∧ average_rating r = 0%Q)
         ∨ (1 ≤ total_ratings r ∧ (1 <= average_rating r <= 5)%Q)).
Proof.
  assert (Hlog : log_ok rated_store).
  { repeat constructor; by_decision. }
  assert (He : song_exists "s1" rated_store) by by_decision.
  split; [exact Hlog | split; [exact He|]].
  exact (average_rating_in_range "s1" rated_store Hlog He).
Defined.

Lemma log_ok_same_songs db db' new :
  (∀ sid, song_exists sid db → song_exists sid db') →
  song_ratings db' = song_ratings db ++ new →
  Forall (λ r, valid_rating (rating_value r)
               ∧ song_exists (rating_song_id r) db) new →
  log_ok db → log_ok db'.
Proof.
  intros Hex Hlog Hnew Hok. unfold log_ok in *. rewrite Hlog.
  apply Forall_app. split; (eapply Forall_impl; [eassumption|]);
    intros r [? ?]; split; auto.
Qed.

(** X6.  The constraints of table [song_ratings] are kept by every run
    of rating submissions and by every ingestion: each logged rating is
    in 1..5 and names a song that is in [songs]. *)
Theorem log_ok_preserved (db : database) :
  log_ok db →
  (∀ calls, log_ok (submit_ratings calls db))
  ∧ (∀ data db', process data db = Some db' → log_ok db').
Proof.
  intros Hok. split.
  - intros calls. pose proof (submit_ratings_log calls db) as Hlog.
    apply (log_ok_same_songs db _ _ (λ sid, proj2 (submit_ratings_song_exists sid calls db)) Hlog);
      [|done].
    unfold accepted_rows. apply Forall_fmap, Forall_forall.
    intros c Hc. apply list_elem_of_filter in Hc as [Hc _]. exact Hc.
  - intros data db' Hp. unfold process in Hp.
    destruct (normalize_data data) as [recs|]; [|done]. simpl in Hp.
    apply (log_ok_same_songs db db' []); [| |constructor|done].
    + intros sid. by apply (insert_songs_song_exists _ _ _ _ Hp).
    + rewrite app_nil_r. by apply (insert_songs_ratings _ _ _ Hp).
Qed.

Lemma log_ok_preserved_witness :
  log_ok rated_store
  ∧ log_ok (submit_ratings example_calls rated_store)
  ∧ process reingest_data rated_store = Some reingested_store
  ∧ log_ok reingested_store.
Proof.
  assert (Hlog : log_ok rated_store).
  { repeat constructor; by_decision. }
  assert (Hp : process reingest_data rated_store = Some reingested_store)
    by (vm_compute; reflexivity).
  split; [exact Hlog | split; [|split; [exact Hp|]]].
  - exact (proj1 (log_ok_preserved rated_store Hlog) example_calls).
  - exact (proj2 (log_ok_preserved rated_store Hlog) reingest_data
             reingested_store Hp).
Defined.

Lemma rate_song_coherent sid v db :
  cache_coherent db → cache_coherent (rate_song sid v db).2.
Proof.
  intros Hc. destruct (decide (accepted sid v db)) as [Ha|Ha];
    [|by rewrite rate_song_rejected].
  intros s Hs.
  destruct (decide (id s = sid)) as [Hid|Hne].
  - rewrite (rate_song_stores_mean _ _ _ _ Ha Hs Hid), Hid.
    rewrite rate_song_ratings_of, decide_True by done.
    by destruct (ratings_of sid db).
  - rewrite rate_song_ratings_of, decide_False, app_nil_r
      by (intros [_ ?]; congruence).
    rewrite rate_song_accepted in Hs by done. cbn [snd] in Hs.
    unfold update_star_rating in Hs; cbn [songs insert_rating] in Hs.
    apply list_elem_of_fmap in Hs as (s0 & -> & Hs0).
    case_decide as Hd; [by destruct Hne | by apply Hc].
Qed.

(** X7.  If every song's [star_rating] agrees with the log (the average
    of its logged ratings, NULL when it has none), it still does after
    any run of rating submissions, accepted or refused. *)
Theorem cache_coherent_preserved (calls : list (string * Z)) (db : database) :
  cache_coherent db → cache_coherent (submit_ratings calls db).
Proof.
  revert db. induction calls as [|[sid v] calls IH]; intros db Hc; [done|].
  apply (IH (rate_song sid v db).2). by apply rate_song_coherent.
Qed.

Lemma cache_coherent_preserved_witness :
  cache_coherent example_store
  ∧ cache_coherent (submit_ratings example_calls example_store).
Proof.
  assert (Hc : cache_coherent example_store).
  { intros s Hs. apply list_elem_of_In in Hs.
    destruct Hs as [<-|[<-|[]]]; reflexivity. }
  split; [exact Hc|].
  exact (cache_coherent_preserved example_calls example_store Hc).
Defined.

Lemma insert_or_replace_NoDup row db :
  NoDup (id <$> songs db) → NoDup (id <$> songs (insert_or_replace row db)).
Proof.
  intros Hn. unfold insert_or_replace; cbn [songs].
  rewrite fmap_app. apply NoDup_app. split; [|split].
  - induction (songs db) as [|s l IH]; [constructor|].
    rewrite fmap_cons in Hn. apply NoDup_cons in Hn as [Hs Hl].
    rewrite filter_cons. case_decide; [|by apply IH].
    rewrite fmap_cons. apply NoDup_cons. split; [|by apply IH].
    intros Hin. apply Hs. apply list_elem_of_fmap in Hin as (s' & -> & Hs').
    apply list_elem_of_filter in Hs' as [_ Hs'].
    apply list_elem_of_fmap. eauto.
  - intros i Hi Hrow. apply list_elem_of_fmap in Hi as (s' & -> & Hs').
    apply list_elem_of_filter in Hs' as [Hne _].
    apply list_elem_of_singleton in Hrow. done.
  - apply NoDup_singleton.
Qed.

(** X8.  [id] stays a key of [songs]: if no two rows share an id, none do
    after any run of rating submissions and after any ingestion, also one
    whose records repeat an id. *)
Theorem song_ids_stay_unique (db : database) :
  NoDup (id <$> songs db) →
  (∀ calls, NoDup (id <$> songs (submit_ratings calls db)))
  ∧ (∀ data db', process data db = Some db' → NoDup (id <$> songs db')).
Proof.
  intros Hn. split.
  - intros calls. revert db Hn.
    induction calls as [|[sid v] calls IH]; intros db Hn; [done|].
    apply (IH (rate_song sid v db).2). by rewrite rate_song_ids.
  - intros data db' Hp. unfold process in Hp.
    destruct (normalize_data data) as [recs|]; [|done]. simpl in Hp.
    revert db Hn Hp. induction recs as [|r recs IH]; intros db Hn Hp;
      simpl in Hp.
    + by injection Hp as <-.
    + destruct (song_of_record r) as [row|]; [|done]. simpl in Hp.
      apply (IH _ (insert_or_replace_NoDup row db Hn) Hp).
Qed.

Lemma song_ids_stay_unique_witness :
  NoDup (id <$> songs rated_store)
  ∧ NoDup (id <$> songs (submit_ratings example_calls rated_store))
  ∧ process reingest_data rated_store = Some reingested_store
  ∧ NoDup (id <$> songs reingested_store).
Proof.
  assert (Hn : NoDup (id <$> songs rated_store)) by by_decision.
  assert (Hp : process reingest_data rated_store = Some reingested_store)
    by (vm_compute; reflexivity).
  split; [exact Hn | split; [|split; [exact Hp|]]].
  - exact (proj1 (song_ids_stay_unique rated_store Hn) example_calls).
  - exact (proj2 (song_ids_stay_unique rated_store Hn) reingest_data
             reingested_store Hp).
Defined.

(** ** Pagination: outcomes, page sizes and coverage *)

Lemma valid_page_check (p pp : Z) :
  valid_page p pp →
  negb (1 <=? p) || negb ((1 <=? pp) && (pp <=? 100)) = false.
Proof.
  intros (H1 & H2 & H3).
  replace (1 <=? p) with true by (symmetry; by apply Z.leb_le).
  replace (1 <=? pp) with true by (symmetry; by apply Z.leb_le).
  replace (pp <=? 100) with true by (symmetry; by apply Z.leb_le).
  reflexivity.
Qed.

Lemma invalid_page_check (p pp : Z) :
  ¬ valid_page p pp →
  negb (1 <=? p) || negb ((1 <=? pp) && (pp <=? 100)) = true.
Proof.
  intros H. unfold valid_page in H.
  destruct (1 <=? p) eqn:E1; [|reflexivity].
  destruct (1 <=? pp) eqn:E2; [|reflexivity].
  destruct (pp <=? 100) eqn:E3; [|reflexivity].
  apply Z.leb_le in E1, E2, E3. lia.
Qed.

Lemma get_all_songs_Ok_inv (p pp : Z) (db : database) (r : SongResponse) :
  get_all_songs p pp db = Ok r →
  valid_page p pp ∧ (p - 1) * pp ≤ sqlite_int64_max
  ∧ r = mkSongResponse
          (take (Z.to_nat pp)
             (drop (Z.to_nat ((p - 1) * pp)) (order_by_title (songs db))))
          (Z.of_nat (length (songs db))) p pp
          ((Z.of_nat (length (songs db)) + pp - 1) / pp).
Proof.
  intros H.
  destruct (decide (valid_page p pp)) as [Hv|Hv].
  - destruct (decide ((p - 1) * pp ≤ sqlite_int64_max)) as [Ho|Ho].
    + rewrite get_all_songs_in_range in H by done. by injection H as <-.
    + unfold get_all_songs in H. rewrite valid_page_check in H by done.
      cbv zeta in H.
      replace (sqlite_int64_max <? (p - 1) * pp) with true in H; [done|].
      symmetry. apply Z.ltb_lt. lia.
  - unfold get_all_songs in H. by rewrite invalid_page_check in H.
Qed.

(** X9.  [get_all_songs] answers 422 exactly when [page < 1] or
    [per_page] is outside 1..100; with valid parameters whose offset
    exceeds SQLite's largest integer it answers 500; and a 200 is given
    only for valid parameters with a bindable offset, its body repeating
    the requested [page] and [per_page] and reporting the number of
    stored songs as [total] and that number over [per_page], rounded up,
    as [total_pages]. *)
Theorem get_all_songs_outcome (p pp : Z) (db : database) :
  (get_all_songs p pp db = RequestValidationError ↔ ¬ valid_page p pp)
  ∧ (valid_page p pp ∧ sqlite_int64_max < (p - 1) * pp →
     get_all_songs p pp db = HTTPException 500 "Internal server error")
  ∧ (∀ r, get_all_songs p pp db = Ok r →
       valid_page p pp ∧ (p - 1) * pp ≤ sqlite_int64_max
       ∧ page r = p ∧ per_page r = pp
       ∧ total r = Z.of_nat (length (songs db))
       ∧ total_pages r = (total r + pp - 1) / pp).
Proof.
  split; [|split].
  - split.
    + intros E Hv. unfold get_all_songs in E.
      rewrite valid_page_check in E by done. cbv zeta in E.
      by destruct (sqlite_int64_max <? (p - 1) * pp).
    + intros Hv. unfold get_all_songs. by rewrite invalid_page_check.
  - intros [Hv Ho]. unfold get_all_songs.
    rewrite valid_page_check by done. cbv zeta.
    replace (sqlite_int64_max <? (p - 1) * pp) with true; [done|].
    symmetry. by apply Z.ltb_lt.
  - intros r E. apply get_all_songs_Ok_inv in E as (Hv & Ho & ->).
    by cbn [page per_page total total_pages].
Qed.

(** X10.  For valid parameters with a bindable offset, the page holds
    [min(per_page, max(0, total - offset))] songs, and it is non-empty
    exactly for the pages 1 to [total_pages]. *)
Theorem page_size_and_last_page (p pp : Z) (db : database) :
  valid_page p pp →
  (p - 1) * pp ≤ sqlite_int64_max →
  ∃ r, get_all_songs p pp db = Ok r
    ∧ Z.of_nat (length (resp_songs r)) =
        Z.min pp (Z.max 0 (total r - (p - 1) * pp))
    ∧ (resp_songs r ≠ [] ↔ p ≤ total_pages r).
Proof.
  intros Hv Ho. eexists. split; [by apply get_all_songs_in_range|].
  cbn [resp_songs total total_pages].
  destruct Hv as (Hp & Hpp1 & Hpp2).
  set (n := length (songs db)).
  assert (Hlen : Z.of_nat (length (take (Z.to_nat pp)
             (drop (Z.to_nat ((p - 1) * pp)) (order_by_title (songs db))))) =
           Z.min pp (Z.max 0 (Z.of_nat n - (p - 1) * pp))).
  { rewrite length_take, length_drop, order_by_title_length. fold n.
    assert (0 ≤ (p - 1) * pp) by nia. lia. }
  split; [exact Hlen|].
  pose proof (total_pages_is_ceil (Z.of_nat n) pp ltac:(lia)) as Hc.
  unfold is_ceil_div in Hc.
  rewrite <- length_zero_iff_nil.
  split; intros H.
  - destruct (decide (p ≤ (Z.of_nat n + pp - 1) / pp)) as [|Hgt]; [done|].
    exfalso. apply H. apply Nat2Z.inj. rewrite Hlen. simpl. nia.
  - intros H0. apply (f_equal Z.of_nat) in H0. rewrite Hlen in H0.
    simpl in H0. nia.
Qed.

Lemma page_size_and_last_page_witness :
  valid_page 2 1
  ∧ (2 - 1) * 1 ≤ sqlite_int64_max
  ∧ ∃ r, get_all_songs 2 1 tie_store = Ok r
      ∧ Z.of_nat (length (resp_songs r)) =
          Z.min 1 (Z.max 0 (total r - (2 - 1) * 1))
      ∧ (resp_songs r ≠ [] ↔ 2 ≤ total_pages r).
Proof.
  assert (Hv : valid_page 2 1) by (unfold valid_page; lia).
  assert (Ho : (2 - 1) * 1 ≤ sqlite_int64_max) by (by vm_compute).
  split; [exact Hv | split; [exact Ho|]].
  exact (page_size_and_last_page 2 1 tie_store Hv Ho).
Defined.

Lemma concat_pages {A} (l : list A) (k n : nat) :
  concat ((λ i, take k (drop (i * k) l)) <$> seq 0 n) = take (n * k) l.
Proof.
  induction n as [|n IH]; [done|].
  rewrite seq_S, fmap_app, concat_app, IH. simpl.
  rewrite app_nil_r, take_take_drop. f_equal. lia.
Qed.

(** X11.  With [per_page] in 1..100 and a table of at most [2^63 - 1]
    songs, the pages 1 to [total_pages], one after the other, are the
    whole table in title order: every song is shown on exactly one
    page. *)
Theorem pages_cover_table (pp : Z) (db : database) :
  1 ≤ pp ≤ 100 →
  Z.of_nat (length (songs db)) ≤ sqlite_int64_max →
  concat ((λ i : nat, page_items (Z.of_nat (S i)) pp db)
          <$> seq 0 (Z.to_nat ((Z.of_nat (length (songs db)) + pp - 1) / pp)))
  = order_by_title (songs db).
Proof.
  intros Hpp Hlen. set (n := length (songs db)) in *.
  pose proof (total_pages_is_ceil (Z.of_nat n) pp ltac:(lia)) as Hc.
  unfold is_ceil_div in Hc.
  set (tp := (Z.of_nat n + pp - 1) / pp) in *.
  assert (Htp : 0 ≤ tp) by nia.
  transitivity (take (Z.to_nat tp * Z.to_nat pp) (order_by_title (songs db)));
    [|apply take_ge; rewrite order_by_title_length; fold n; nia].
  rewrite <- concat_pages. f_equal.
  apply list_fmap_ext. intros j i Hi.
  apply lookup_seq in Hi as [-> Hi]. simpl.
  unfold page_items.
  rewrite get_all_songs_in_range; [|unfold valid_page; lia|nia].
  cbn [resp_songs]. do 2 f_equal. lia.
Qed.

Lemma pages_cover_table_witness :
  1 ≤ 1 ≤ 100
  ∧ Z.of_nat (length (songs tie_store)) ≤ sqlite_int64_max
  ∧ page_items 1 1 tie_store ++ page_items 2 1 tie_store ++ []
    = order_by_title (songs tie_store).
Proof.
  assert (Hpp : 1 ≤ 1 ≤ 100) by lia.
  assert (Hlen : Z.of_nat (length (songs tie_store)) ≤ sqlite_int64_max)
    by (by vm_compute).
  split; [exact Hpp | split; [exact Hlen|]].
  exact (pages_cover_table 1 tie_store Hpp Hlen).
Defined.

(** ** Search: substring matching *)

Lemma like_chars_any_run_iff (p l : list string) :
  like_chars ("%" :: p) l = true ↔
  ∃ l1 l2, l = l1 ++ l2 ∧ like_chars p l2 = true.
Proof.
  induction l as [|d l IH]; rewrite like_chars_any_run, orb_true_iff.
  - split.
    + intros [H|H]; [by exists [], [] | done].
    + intros (l1 & l2 & E & H). symmetry in E.
      apply app_eq_nil in E as [-> ->]. by left.
  - rewrite IH. split.
    + intros [H|(l1 & l2 & -> & H)]; [by exists [], (d :: l)|].
      by exists (d :: l1), l2.
    + intros (l1 & l2 & E & H). destruct l1 as [|d' l1]; simpl in E.
      * left. by rewrite E.
      * injection E as -> ->. right. by exists l1, l2.
Qed.

Lemma like_chars_literal (c : string) (p l : list string) :
  c ≠ "%" → c ≠ "_" →
  like_chars (c :: p) l = true ↔
  ∃ d l', l = d :: l' ∧ sql_lower c = sql_lower d ∧ like_chars p l' = true.
Proof.
  intros H1 H2. simpl. rewrite !decide_False by done.
  destruct l as [|d l'].
  - split; [done | by intros (? & ? & ? & _)].
  - rewrite andb_true_iff, bool_decide_eq_true. split.
    + intros [? ?]. by exists d, l'.
    + by intros (? & ? & [= <- <-] & ? & ?).
Qed.

Lemma like_chars_literals (qs l : list string) :
  Forall (λ c, c ≠ "%" ∧ c ≠ "_") qs →
  like_chars (qs ++ ["%"]) l = true ↔
  ∃ ds b, l = ds ++ b ∧ Forall2 (λ c d, sql_lower c = sql_lower d) qs ds.
Proof.
  intros Hq. revert l. induction Hq as [|c qs [H1 H2] _ IH]; intros l.
  - simpl app. rewrite like_chars_trailing_any. split; [|done].
    intros _. exists [], l. split; [done | constructor].
  - change ((c :: qs) ++ ["%"]) with (c :: (qs ++ ["%"])).
    rewrite like_chars_literal by done. split.
    + intros (d & l' & -> & Hcd & H). apply IH in H as (ds & b & -> & Hf).
      exists (d :: ds), b. split; [done | by constructor].
    + intros (ds & b & -> & Hf). inversion Hf as [|? d ? ds' Hcd Hf']; subst.
      exists d, (ds' ++ b). split; [done|]. split; [done|].
      apply IH. by exists ds', b.
Qed.

Lemma singles_app (a b : string) : singles (a +:+ b) = singles a ++ singles b.
Proof. induction a as [|c a IH]; simpl; [done | by rewrite IH]. Qed.

Lemma singles_app_inv (t : string) (a rest : list string) :
  singles t = a ++ rest →
  ∃ a' t', t = a' +:+ t' ∧ a = singles a' ∧ rest = singles t'.
Proof.
  revert t. induction a as [|x a IH]; intros t H; simpl in H.
  - by exists "", t.
  - destruct t as [|c t]; simpl in H; [done|]. injection H as <- H.
    destruct (IH _ H) as (a' & t' & -> & -> & ->).
    by exists (String c a'), t'.
Qed.

Lemma singles_inj (a b : string) : singles a = singles b → a = b.
Proof.
  revert b. induction a as [|c a IH]; intros [|d b] H; simpl in H;
    try done.
  injection H as -> H. by rewrite (IH _ H).
Qed.

Lemma utf8_chars_ascii (s : string) : ascii_only s = true → utf8_chars s = singles s.
Proof.
  induction s as [|c s IH]; [done|]. simpl. intros H.
  apply andb_true_iff in H as [_ Hs]. rewrite (IH Hs).
  destruct s as [|d s]; [done|]. simpl.
  simpl in Hs. apply andb_true_iff in Hs as [Hd _].
  apply Nat.ltb_lt in Hd. unfold is_continuation.
  replace (128 <=? nat_of_ascii d)%nat with false; [done|].
  symmetry. apply Nat.leb_gt. lia.
Qed.

Lemma lower_ascii_facts (c : ascii) :
  lower_ascii (lower_ascii c) = lower_ascii c
  ∧ ((nat_of_ascii c <? 128)%nat = true →
     (nat_of_ascii (lower_ascii c) <? 128)%nat = true)
  ∧ (negb (Ascii.eqb c "%") && negb (Ascii.eqb c "_") = true →
     String (lower_ascii c) "" ≠ "%" ∧ String (lower_ascii c) "" ≠ "_").
Proof.
  destruct c as [[] [] [] [] [] [] [] []]; vm_compute;
    (split; [reflexivity | split; [done | intros ?; split; congruence]]).
Qed.

Lemma sql_lower_idemp (s : string) : sql_lower (sql_lower s) = sql_lower s.
Proof.
  induction s as [|c s IH]; simpl; [done|].
  by rewrite IH, (proj1 (lower_ascii_facts c)).
Qed.

Lemma sql_lower_ascii_only (s : string) :
  ascii_only s = true → ascii_only (sql_lower s) = true.
Proof.
  induction s as [|c s IH]; simpl; [done|].
  intros H. apply andb_true_iff in H as [Hc Hs].
  apply andb_true_iff. split; [|by apply IH].
  by apply lower_ascii_facts.
Qed.

Lemma ascii_only_app (a b : string) :
  ascii_only (a +:+ b) = ascii_only a && ascii_only b.
Proof.
  induction a as [|c a IH]; simpl; [done|]. by rewrite IH, andb_assoc.
Qed.

Lemma singles_lower_literal (q : string) :
  wildcard_free q = true →
  Forall (λ c, c ≠ "%" ∧ c ≠ "_") (singles (sql_lower q)).
Proof.
  induction q as [|c q IH]; simpl; [constructor|].
  intros H. apply andb_true_iff in H as [Hc Hq].
  constructor; [|by apply IH]. by apply lower_ascii_facts.
Qed.

Lemma singles_lower_fixed (t : string) :
  Forall (λ d, sql_lower d = d) (singles (sql_lower t)).
Proof.
  induction t as [|c t IH]; simpl; constructor; [|done].
  simpl. by rewrite (proj1 (lower_ascii_facts c)).
Qed.

Lemma Forall2_fixed_eq (cs ds : list string) :
  Forall (λ d, sql_lower d = d) cs →
  Forall (λ d, sql_lower d = d) ds →
  Forall2 (λ c d, sql_lower c = sql_lower d) cs ds → cs = ds.
Proof.
  intros Hc Hd H. induction H as [|c d cs ds Hcd _ IH]; [done|].
  apply Forall_cons in Hc as [Hc Hcs]. apply Forall_cons in Hd as [Hd Hds].
  rewrite Hc, Hd in Hcd. subst. f_equal. by apply IH.
Qed.

Lemma c_string_nul_free (s : string) : nul_free s = true → c_string s = s.
Proof.
  induction s as [|c s IH]; [done|]. simpl.
  destruct (Ascii.eqb c zero); [done|]. simpl. intros H. by rewrite IH.
Qed.

Lemma nul_free_app (a b : string) :
  nul_free (a +:+ b) = nul_free a && nul_free b.
Proof.
  induction a as [|c a IH]; simpl; [done|]. by rewrite IH, andb_assoc.
Qed.

Lemma lower_ascii_nul (c : ascii) :
  Ascii.eqb (lower_ascii c) zero = Ascii.eqb c zero.
Proof.
  unfold lower_ascii. destruct (is_upper c) eqn:E; [|done].
  destruct c as [[] [] [] [] [] [] [] []]; vm_compute in E |- *; congruence.
Qed.

Lemma nul_free_lower (s : string) : nul_free (sql_lower s) = nul_free s.
Proof.
  induction s as [|c s IH]; [done|]. simpl. by rewrite lower_ascii_nul, IH.
Qed.

Lemma title_like_ascii (q : string) (s : Song) :
  ascii_only q = true → wildcard_free q = true → nul_free q = true →
  ascii_only (title s) = true → nul_free (title s) = true →
  title_like q s = true ↔ is_substring (sql_lower q) (sql_lower (title s)).
Proof.
  intros Hq Hw Hz Ht Htz. unfold title_like, sql_like.
  rewrite !sql_lower_app.
  change (sql_lower "%") with "%".
  rewrite (c_string_nul_free ("%" +:+ sql_lower q +:+ "%"))
    by (by rewrite !nul_free_app, nul_free_lower, Hz).
  rewrite (c_string_nul_free (sql_lower (title s)))
    by (by rewrite nul_free_lower).
  assert (Hp : ascii_only ("%" +:+ sql_lower q +:+ "%") = true).
  { rewrite !ascii_only_app, sql_lower_ascii_only by done. reflexivity. }
  rewrite (utf8_chars_ascii _ Hp),
    (utf8_chars_ascii _ (sql_lower_ascii_only _ Ht)).
  change ("%" +:+ sql_lower q +:+ "%") with (String "%" (sql_lower q +:+ "%")).
  cbn [singles]. rewrite singles_app. change (singles "%") with ["%"].
  rewrite like_chars_any_run_iff. split.
  - intros (l1 & l2 & E & H).
    apply like_chars_literals in H as (ds & b & -> & Hf);
      [|by apply singles_lower_literal].
    apply singles_app_inv in E as (a' & t' & Et & -> & E2).
    symmetry in E2. apply singles_app_inv in E2 as (m' & b' & -> & -> & ->).
    apply Forall2_fixed_eq in Hf.
    + apply singles_inj in Hf as <-. by exists a', b'.
    + apply singles_lower_fixed.
    + pose proof (singles_lower_fixed (title s)) as Hfix.
      rewrite Et, !singles_app, !Forall_app in Hfix. tauto.
  - intros (a & b & E). rewrite E, !singles_app.
    exists (singles a), (singles (sql_lower q) ++ singles b). split; [done|].
    apply like_chars_literals; [by apply singles_lower_literal|].
    exists (singles (sql_lower q)), (singles b). split; [done|].
    apply Forall2_same_length_lookup_2; [done|]. intros; congruence.
Qed.

(** X12.  On ASCII titles and for an ASCII query without [%] and [_],
    neither holding a NUL byte (where SQLite ends the text it compares),
    and with a pattern [%query%] within the 50000 bytes SQLite accepts
    for a LIKE pattern, the search is the case-insensitive substring
    match: a stored song is returned exactly when the lower-cased query
    occurs in its lower-cased title. *)
Theorem search_is_substring_match (q : string) (db : database) :
  ascii_only q = true →
  wildcard_free q = true →
  nul_free q = true →
  Z.of_nat (String.length ("%" +:+ q +:+ "%"))
    ≤ sqlite_max_like_pattern_length →
  Forall (λ s, ascii_only (title s) = true ∧ nul_free (title s) = true)
         (songs db) →
  ∃ items,
    search_songs_by_title (Some q) db = Ok items
    ∧ ∀ s, s ∈ items ↔
        s ∈ songs db ∧ is_substring (sql_lower q) (sql_lower (title s)).
Proof.
  intros Hq Hw Hz _ Ht. eexists. split; [reflexivity|]. intros s.
  rewrite order_by_title_Permutation, list_elem_of_filter.
  rewrite Forall_forall in Ht. split.
  - intros [Hl Hs]. split; [done|]. destruct (Ht _ Hs).
    by apply title_like_ascii.
  - intros [Hs Hsub]. split; [|done]. destruct (Ht _ Hs).
    by apply title_like_ascii.
Qed.

Lemma search_is_substring_match_witness :
  ascii_only "3am" = true
  ∧ wildcard_free "3am" = true
  ∧ nul_free "3am" = true
  ∧ Z.of_nat (String.length ("%" +:+ "3am" +:+ "%"))
      ≤ sqlite_max_like_pattern_length
  ∧ Forall (λ s, ascii_only (title s) = true ∧ nul_free (title s) = true)
           (songs example_store)
  ∧ ∃ items,
      search_songs_by_title (Some "3am") example_store = Ok items
      ∧ ∀ s, s ∈ items ↔
          s ∈ songs example_store
          ∧ is_substring (sql_lower "3am") (sql_lower (title s)).
Proof.
  assert (Hl : Z.of_nat (String.length ("%" +:+ "3am" +:+ "%"))
               ≤ sqlite_max_like_pattern_length)
    by (by vm_compute).
  assert (Ht : Forall (λ s, ascii_only (title s) = true
                            ∧ nul_free (title s) = true)
                 (songs example_store))
    by (repeat constructor).
  split; [reflexivity | split; [reflexivity | split; [reflexivity|]]].
  split; [exact Hl | split; [exact Ht|]].
  exact (search_is_substring_match "3am" example_store
           eq_refl eq_refl eq_refl Hl Ht).
Defined.

(** X13.  [title] must be present but may be empty: the empty query
    matches every title and returns the whole table in title order; a
    request without [title] is a 422. *)
Theorem search_empty_query_lists_all (db : database) :
  search_songs_by_title (Some "") db = Ok (order_by_title (songs db))
  ∧ search_songs_by_title None db = RequestValidationError.
Proof.
  split; [|reflexivity].
  unfold search_songs_by_title. do 2 f_equal.
  induction (songs db) as [|s l IH]; [done|].
  rewrite filter_cons, decide_True, IH; [done|].
  unfold title_like, sql_like.
  change (utf8_chars (c_string (sql_lower ("%" +:+ "" +:+ "%"))))
    with ["%"; "%"].
  apply like_chars_any_prefix, like_chars_trailing_any.
Qed.

(** ** Ingestion: normalization, batches and reruns *)

Lemma normalize_fold_other (i : nat) (a : string) (data : list (string * record))
    (m : record) :
  a ∉ data.*1 →
  foldl (λ (rec : record) (col : string * record),
           <[col.1 := default None (col.2 !! pretty i)]> rec) m data !! a
  = m !! a.
Proof.
  revert m. induction data as [|[b c] data IH]; intros m Ha; [done|].
  rewrite fmap_cons, not_elem_of_cons in Ha. destruct Ha as [Hab Ha].
  simpl. rewrite IH by done. by rewrite lookup_insert_ne.
Qed.

Lemma normalize_fold_lookup (i : nat) (a : string) (col : record)
    (data : list (string * record)) (m : record) :
  NoDup data.*1 → (a, col) ∈ data →
  foldl (λ (rec : record) (col : string * record),
           <[col.1 := default None (col.2 !! pretty i)]> rec) m data !! a
  = Some (default None (col !! pretty i)).
Proof.
  revert m. induction data as [|[b c] data IH]; intros m Hn Hin.
  - by apply elem_of_nil in Hin.
  - rewrite fmap_cons in Hn. apply NoDup_cons in Hn as [Hb Hn].
    apply elem_of_cons in Hin as [[= <- <-]|Hin]; simpl.
    + rewrite normalize_fold_other by done. by rewrite lookup_insert_eq.
    + by apply IH.
Qed.

Lemma normalize_fold_dom (i : nat) (data : list (string * record)) (m : record) :
  dom (foldl (λ (rec : record) (col : string * record),
                <[col.1 := default None (col.2 !! pretty i)]> rec) m data)
  = dom m ∪ list_to_set data.*1.
Proof.
  revert m. induction data as [|[b c] data IH]; intros m; simpl.
  - by rewrite (right_id_L ∅ (∪)).
  - by rewrite IH, dom_insert_L, (comm_L (∪) {[b]}), (assoc_L (∪)).
Qed.

(** X14.  [normalize_data] fails on an object without attributes;
    otherwise it returns one record per entry of the first attribute,
    and record [i] has exactly the attribute names and [star_rating] as
    keys, [star_rating] bound to [None] (also when the input has such a
    column), and every other attribute bound to the value its column
    holds under key [str(i)], or to [None] when the column has no such
    key. *)
Theorem normalize_data_records (data : list (string * record)) :
  (normalize_data data = None ↔ data = [])
  ∧ ∀ normalized, normalize_data data = Some normalized →
      (∃ name first rest,
         data = (name, first) :: rest ∧ length normalized = size first)
      ∧ ∀ (i : nat) (rec : record), normalized !! i = Some rec →
          dom rec = list_to_set data.*1 ∪ {["star_rating"]}
          ∧ rec !! "star_rating" = Some None
          ∧ (NoDup data.*1 →
             ∀ a col, (a, col) ∈ data → a ≠ "star_rating" →
               rec !! a = Some (default None (col !! pretty i))).
Proof.
  split.
  - destruct data as [|[name first] rest]; simpl; split; done.
  - intros normalized H. destruct data as [|[name first] rest]; [done|].
    injection H as <-. split.
    + exists name, first, rest. split; [done|].
      by rewrite length_fmap, length_seq.
    + intros i rec Hi. rewrite list_lookup_fmap in Hi.
      destruct (seq 0 (size first) !! i) as [j|] eqn:Hj; [|done].
      apply lookup_seq in Hj as [-> _]. injection Hi as <-. simpl.
      split; [|split].
      * rewrite dom_insert_L.
        pose proof (normalize_fold_dom i ((name, first) :: rest) ∅) as Hd.
        simpl in Hd. rewrite Hd, dom_empty_L, (left_id_L ∅ (∪)).
        apply (comm_L (∪)).
      * by rewrite lookup_insert_eq.
      * intros Hn a col Hin Ha. rewrite lookup_insert_ne by done.
        by apply (normalize_fold_lookup i a col ((name, first) :: rest) ∅).
Qed.

Lemma normalize_data_records_witness :
  normalize_data two_column_data = Some two_column_normalized
  ∧ length two_column_normalized = 2%nat
  ∧ ∀ rec, two_column_normalized !! 1%nat = Some rec →
      rec !! "id" = Some (Some (JStr "b"))
      ∧ rec !! "title" = Some None
      ∧ rec !! "star_rating" = Some None.
Proof.
  assert (E : normalize_data two_column_data = Some two_column_normalized)
    by (vm_compute; reflexivity).
  assert (Hn : NoDup two_column_data.*1) by by_decision.
  destruct (proj2 (normalize_data_records two_column_data) _ E)
    as [_ Hrec].
  split; [exact E | split; [reflexivity|]].
  intros rec Hr. destruct (Hrec 1%nat rec Hr) as (_ & Hs & Hcols).
  split; [|split; [|exact Hs]].
  - exact (Hcols Hn "id" _ ltac:(left) ltac:(done)).
  - exact (Hcols Hn "title" _ ltac:(right; left) ltac:(done)).
Defined.

Lemma insert_songs_rows_of (recs : list record) (db : database) :
  insert_songs recs db = (λ rows, insert_rows rows db) <$> rows_of_records recs.
Proof.
  revert db. unfold rows_of_records.
  induction recs as [|r recs IH]; intros db; [done|].
  simpl. destruct (song_of_record r) as [row|]; [|done]. simpl.
  rewrite IH. by destruct (mapM song_of_record recs).
Qed.

Lemma insert_rows_ratings (rows : list Song) (db : database) :
  song_ratings (insert_rows rows db) = song_ratings db.
Proof.
  revert db. induction rows as [|row rows IH]; intros db; [done|].
  simpl. by rewrite IH.
Qed.

Lemma filter_all {A} (P : A → Prop) `{∀ x, Decision (P x)} (l : list A) :
  (∀ x, x ∈ l → P x) → filter P l = l.
Proof.
  induction l as [|x l IH]; intros Hall; [done|].
  rewrite filter_cons_True by (apply Hall; left).
  f_equal. apply IH. intros y Hy. apply Hall. by right.
Qed.

Lemma filter_none {A} (P : A → Prop) `{∀ x, Decision (P x)} (l : list A) :
  (∀ x, x ∈ l → ¬ P x) → filter P l = [].
Proof.
  induction l as [|x l IH]; intros Hall; [done|].
  rewrite filter_cons_False by (apply Hall; left).
  apply IH. intros y Hy. apply Hall. by right.
Qed.

(** The table after a batch: the old rows whose id is not in the batch,
    in their order, followed by what the batch alone leaves. *)
Lemma insert_rows_split (rows l1 l2 : list Song) (rs : list Rating) :
  songs (insert_rows rows (mkDb (l1 ++ l2) rs)) =
  filter (λ s, id s ∉ id <$> rows) l1 ++ songs (insert_rows rows (mkDb l2 rs)).
Proof.
  revert l1 l2. induction rows as [|row rows IH]; intros l1 l2.
  - simpl. f_equal. symmetry. apply filter_all.
    intros s _. apply not_elem_of_nil.
  - change (songs (insert_rows rows
               (mkDb (filter (λ s, id s ≠ id row) (l1 ++ l2) ++ [row]) rs)) =
            filter (λ s, id s ∉ id <$> row :: rows) l1 ++
            songs (insert_rows rows
               (mkDb (filter (λ s, id s ≠ id row) l2 ++ [row]) rs))).
    rewrite filter_app, <- app_assoc, IH. f_equal.
    rewrite list_filter_filter. apply list_filter_iff.
    intros s. rewrite fmap_cons, not_elem_of_cons. tauto.
Qed.

Lemma insert_rows_ids (rows : list Song) (rs : list Rating) (s : Song) :
  s ∈ songs (insert_rows rows (mkDb [] rs)) → id s ∈ id <$> rows.
Proof.
  assert (H : ∀ l, s ∈ songs (insert_rows rows (mkDb l rs)) →
            s ∈ l ∨ id s ∈ id <$> rows).
  { induction rows as [|row rows IH]; intros l Hs; [by left|].
    simpl in Hs. apply IH in Hs as [Hs|Hs].
    - apply elem_of_app in Hs as [Hs|Hs].
      + left. by apply list_elem_of_filter in Hs as [_ ?].
      + apply list_elem_of_singleton in Hs as ->. right. left.
    - right. by right. }
  intros Hs. destruct (H [] Hs) as [Hn|?]; [by apply elem_of_nil in Hn | done].
Qed.

Lemma insert_rows_closed (rows : list Song) (db : database) :
  songs (insert_rows rows db) =
  filter (λ s, id s ∉ id <$> rows) (songs db)
  ++ songs (insert_rows rows (mkDb [] (song_ratings db))).
Proof.
  destruct db as [l rs]. rewrite <- (app_nil_r l) at 1.
  apply insert_rows_split.
Qed.

Lemma insert_rows_written (rows : list Song) (rs : list Rating) :
  (∀ s, s ∈ songs (insert_rows rows (mkDb [] rs)) → s ∈ rows)
  ∧ (∀ row, row ∈ rows →
       id row ∈ id <$> songs (insert_rows rows (mkDb [] rs))).
Proof.
  split.
  - intros s Hs.
    assert (H : ∀ l, s ∈ songs (insert_rows rows (mkDb l rs)) →
              s ∈ l ∨ s ∈ rows).
    { clear. induction rows as [|row rows IH]; intros l Hs; [by left|].
      simpl in Hs. apply IH in Hs as [Hs|Hs].
      - apply elem_of_app in Hs as [Hs|Hs].
        + left. by apply list_elem_of_filter in Hs as [_ ?].
        + apply list_elem_of_singleton in Hs as ->. right. left.
      - right. by right. }
    destruct (H [] Hs) as [Hn|?]; [by apply elem_of_nil in Hn | done].
  - intros row Hrow.
    assert (H : ∀ d, (id row ∈ id <$> songs d ∨ row ∈ rows) →
              id row ∈ id <$> songs (insert_rows rows d)).
    { clear. induction rows as [|r rows IH]; intros d [Hd|Hr]; simpl.
      - done.
      - by apply elem_of_nil in Hr.
      - apply IH. left. apply list_elem_of_fmap in Hd as (s & Hs & Hin).
        destruct (decide (id s = id r)) as [E|E].
        + rewrite Hs, E. apply list_elem_of_fmap. exists r.
          split; [done|]. apply insert_or_replace_rows. by right.
        + rewrite Hs. apply list_elem_of_fmap. exists s.
          split; [done|]. apply insert_or_replace_rows. by left.
      - apply elem_of_cons in Hr as [->|Hr]; apply IH; [left | by right].
        apply list_elem_of_fmap. exists r. split; [done|].
        apply insert_or_replace_rows. by right. }
    apply H. by right.
Qed.

(** X15.  When every record of a batch binds to a row, [insert_songs]
    succeeds; it leaves the songs whose id is not in the batch in the
    table, unchanged and in their order, writes after them rows under
    ids of the batch only, at least one for every id of the batch, and
    leaves [song_ratings] as it was. *)
Theorem ingestion_keeps_other_songs (recs : list record) (rows : list Song)
    (db : database) :
  rows_of_records recs = Some rows →
  ∃ db' written,
    insert_songs recs db = Some db'
    ∧ song_ratings db' = song_ratings db
    ∧ songs db' = filter (λ s, id s ∉ id <$> rows) (songs db) ++ written
    ∧ (∀ s, s ∈ written → id s ∈ id <$> rows)
    ∧ (∀ row, row ∈ rows → id row ∈ id <$> written).
Proof.
  intros Hr.
  exists (insert_rows rows db),
         (songs (insert_rows rows (mkDb [] (song_ratings db)))).
  split; [by rewrite insert_songs_rows_of, Hr|].
  split; [apply insert_rows_ratings|].
  split; [apply insert_rows_closed|].
  split; [intros s; apply insert_rows_ids | apply insert_rows_written].
Qed.

Lemma ingestion_keeps_other_songs_witness :
  rows_of_records [reingest_record] =
    Some [reingested_row]
  ∧ ∃ db' written,
      insert_songs [reingest_record] rated_store = Some db'
      ∧ song_ratings db' = song_ratings rated_store
      ∧ songs db' = [bare_song "s2" "Unwell"] ++ written.
Proof.
  assert (Hr : rows_of_records [reingest_record] =
    Some [reingested_row])
    by (vm_compute; reflexivity).
  split; [exact Hr|].
  destruct (ingestion_keeps_other_songs _ _ rated_store Hr)
    as (db' & written & H1 & H2 & H3 & _).
  exists db', written. split; [exact H1 | split; [exact H2 | exact H3]].
Defined.

Lemma database_eq (a b : database) :
  songs a = songs b → song_ratings a = song_ratings b → a = b.
Proof. destruct a, b; simpl; congruence. Qed.

Lemma insert_rows_idemp (rows : list Song) (db : database) :
  insert_rows rows (insert_rows rows db) = insert_rows rows db.
Proof.
  apply database_eq; [|by rewrite !insert_rows_ratings].
  rewrite (insert_rows_closed rows (insert_rows rows db)).
  rewrite insert_rows_ratings.
  rewrite (insert_rows_closed rows db) at 2.
  rewrite (insert_rows_closed rows db) at 1.
  rewrite filter_app, <- app_assoc. f_equal.
  - rewrite list_filter_filter. apply list_filter_iff. tauto.
  - replace (filter (λ s, id s ∉ id <$> rows)
               (songs (insert_rows rows (mkDb [] (song_ratings db)))))
      with (@nil Song); [done|].
    symmetry. apply filter_none. intros s Hs Hn.
    apply Hn. by eapply insert_rows_ids.
Qed.

(** X16.  Running the same ingestion a second time changes nothing: the
    database after the second run is the database after the first. *)
Theorem process_idempotent (data : list (string * record))
    (db db1 : database) :
  process data db = Some db1 → process data db1 = Some db1.
Proof.
  unfold process. destruct (normalize_data data) as [recs|]; [|done].
  simpl. rewrite !insert_songs_rows_of.
  destruct (rows_of_records recs) as [rows|]; [|done]. simpl.
  intros [= <-]. by rewrite insert_rows_idemp.
Qed.

Lemma process_idempotent_witness :
  process reingest_data rated_store = Some reingested_store
  ∧ process reingest_data reingested_store = Some reingested_store.
Proof.
  assert (Hp : process reingest_data rated_store = Some reingested_store)
    by (vm_compute; reflexivity).
  split; [exact Hp|].
  exact (process_idempotent reingest_data rated_store reingested_store Hp).
Defined.

Lemma insert_songs_app (recs1 recs2 : list record) (db : database) :
  insert_songs (recs1 ++ recs2) db =
  insert_songs recs1 db ≫= insert_songs recs2.
Proof.
  revert db. induction recs1 as [|r recs1 IH]; intros db; [done|].
  simpl. destruct (song_of_record r) as [row|]; [|done]. simpl. apply IH.
Qed.

Lemma insert_songs_keeps_row (recs : list record) (db db' : database)
    (s : Song) :
  insert_songs recs db = Some db' →
  s ∈ songs db →
  (∀ r row, r ∈ recs → song_of_record r = Some row → id row ≠ id s) →
  s ∈ songs db'.
Proof.
  revert db. induction recs as [|r recs IH]; intros db H Hs Hne; simpl in H.
  - by injection H as <-.
  - destruct (song_of_record r) as [row|] eqn:E; [|done]. simpl in H.
    apply (IH _ H).
    + apply insert_or_replace_rows. left. split; [done|].
      intros Heq. apply (Hne r row); [left | done | done].
    + intros r' row' Hr'. apply Hne. by right.
Qed.

Lemma insert_songs_NoDup (recs : list record) (db db' : database) :
  insert_songs recs db = Some db' →
  NoDup (id <$> songs db) → NoDup (id <$> songs db').
Proof.
  revert db. induction recs as [|r recs IH]; intros db H Hn; simpl in H.
  - by injection H as <-.
  - destruct (song_of_record r) as [row|]; [|done]. simpl in H.
    apply (IH _ H). by apply insert_or_replace_NoDup.
Qed.

(** X17.  When a batch names an id more than once, the last record with
    that id is the one stored: after [insert_songs] its row is in the
    table, and if ids were unique before, it is the only row with that
    id. *)
Theorem last_record_wins (recs1 recs2 : list record) (r : record)
    (row : Song) (db db' : database) :
  insert_songs (recs1 ++ r :: recs2) db = Some db' →
  song_of_record r = Some row →
  (∀ r2 row2, r2 ∈ recs2 → song_of_record r2 = Some row2 →
     id row2 ≠ id row) →
  row ∈ songs db'
  ∧ (NoDup (id <$> songs db) → ∀ s, s ∈ songs db' → id s = id row → s = row).
Proof.
  intros H Hr Hlast. rewrite insert_songs_app in H.
  destruct (insert_songs recs1 db) as [d1|] eqn:E1; [|done].
  simpl in H. rewrite Hr in H. simpl in H.
  assert (Hin : row ∈ songs db').
  { apply (insert_songs_keeps_row _ _ _ _ H); [|done].
    apply insert_or_replace_rows. by right. }
  split; [done|]. intros Hn s Hs Hid.
  assert (Hn' : NoDup (id <$> songs db')).
  { apply (insert_songs_NoDup _ _ _ H), insert_or_replace_NoDup.
    by apply (insert_songs_NoDup _ _ _ E1). }
  apply list_elem_of_lookup in Hs as [i Hi].
  apply list_elem_of_lookup in Hin as [j Hj].
  assert (i = j) as ->; [|congruence].
  apply (NoDup_lookup _ _ _ (id row) Hn'); rewrite list_lookup_fmap.
  - by rewrite Hi, <- Hid.
  - by rewrite Hj.
Qed.

Lemma last_record_wins_witness :
  insert_songs ([<["title" := Some (JStr "old")]> reingest_record]
                ++ reingest_record :: []) rated_store
    = Some reingested_store
  ∧ song_of_record reingest_record =
      Some (reingested_row)
  ∧ reingested_row
      ∈ songs reingested_store.
Proof.
  assert (H : insert_songs ([<["title" := Some (JStr "old")]> reingest_record]
                ++ reingest_record :: []) rated_store
              = Some reingested_store) by (vm_compute; reflexivity).
  assert (Hr : song_of_record reingest_record =
      Some (reingested_row))
    by (vm_compute; reflexivity).
  split; [exact H | split; [exact Hr|]].
  refine (proj1 (last_record_wins _ _ _ _ _ _ H Hr _)).
  intros r2 row2 Hr2. by apply elem_of_nil in Hr2.
Defined.

Lemma ingested_row_unrated (data : list (string * record))
    (normalized : list record) (r : record) (s : Song) :
  normalize_data data = Some normalized →
  r ∈ normalized →
  song_of_record r = Some s →
  star_rating s = None ∧ record_get "id" r = Some (JStr (id s)).
Proof.
  intros Hn Hr E. destruct (song_of_record_fields _ _ E) as (Hi & _ & Hs).
  split; [|done]. apply Hs. by eapply normalize_data_star_rating.
Qed.

(** X18.  An ingestion keeps the cached aggregates in agreement with
    the log provided no song of the batch has logged ratings: if every
    [star_rating] agreed with the log before and the log holds nothing
    for the ingested ids, every [star_rating] agrees with it after. *)
Theorem ingestion_keeps_coherence (data : list (string * record))
    (normalized : list record) (db db' : database) :
  normalize_data data = Some normalized →
  process data db = Some db' →
  cache_coherent db →
  (∀ r sid, r ∈ normalized → record_get "id" r = Some (JStr sid) →
     ratings_of sid db = []) →
  cache_coherent db'.
Proof.
  intros Hn Hp Hc Hun. unfold process in Hp. rewrite Hn in Hp. simpl in Hp.
  intros s Hs.
  rewrite (ratings_of_same_log _ _ _ (insert_songs_ratings _ _ _ Hp)).
  destruct (insert_songs_rows _ _ _ _ Hp Hs) as [(r & Hr & E)|[Hold _]].
  - destruct (ingested_row_unrated _ _ _ _ Hn Hr E) as [-> Hid].
    by rewrite (Hun r (id s) Hr Hid).
  - by apply Hc.
Qed.

Lemma ingestion_keeps_coherence_witness :
  normalize_data reingest_data = Some [reingest_record]
  ∧ process reingest_data example_store =
      Some (mkDb [bare_song "s2" "Unwell";
                  reingested_row] [])
  ∧ cache_coherent example_store
  ∧ cache_coherent
      (mkDb [bare_song "s2" "Unwell";
             reingested_row] []).
Proof.
  assert (Hn : normalize_data reingest_data = Some [reingest_record])
    by (vm_compute; reflexivity).
  assert (Hp : process reingest_data example_store =
      Some (mkDb [bare_song "s2" "Unwell";
                  reingested_row] [])) by (vm_compute; reflexivity).
  assert (Hc : cache_coherent example_store).
  { intros s Hs. apply list_elem_of_In in Hs.
    destruct Hs as [<-|[<-|[]]]; reflexivity. }
  split; [exact Hn | split; [exact Hp | split; [exact Hc|]]].
  refine (ingestion_keeps_coherence _ _ _ _ Hn Hp Hc _).
  intros r sid _ _. reflexivity.
Defined.

(** X19.  The first ingestion, into a database file that does not exist
    yet, gives a table with unique ids and an empty log in which every
    song is unrated: [star_rating] is NULL and [get_song_rating] answers
    0.0 with count 0 for each stored song. *)
Theorem first_ingestion_unrated (data : list (string * record))
    (db' : database) :
  process data (create_database None) = Some db' →
  song_ratings db' = []
  ∧ NoDup (id <$> songs db')
  ∧ ∀ s, s ∈ songs db' →
      star_rating s = None
      ∧ get_song_rating (id s) db' = Ok (mkRatingResponse (id s) 0%Q 0).
Proof.
  intros Hp. unfold process in Hp.
  destruct (normalize_data data) as [recs|] eqn:Hn; [|done]. simpl in Hp.
  pose proof (insert_songs_ratings _ _ _ Hp) as Hlog. simpl in Hlog.
  split; [done|]. split.
  { apply (insert_songs_NoDup _ _ _ Hp). simpl. constructor. }
  intros s Hs. split.
  - destruct (insert_songs_rows _ _ _ _ Hp Hs) as [(r & Hr & E)|[Hold _]].
    + by destruct (ingested_row_unrated _ _ _ _ Hn Hr E).
    + by apply elem_of_nil in Hold.
  - rewrite get_song_rating_exists.
    + unfold ratings_of. by rewrite Hlog.
    + unfold song_exists. apply list_elem_of_fmap. by exists s.
Qed.

Lemma first_ingestion_unrated_witness :
  process reingest_data (create_database None) =
    Some (mkDb [reingested_row] [])
  ∧ get_song_rating "s1"
      (mkDb [reingested_row] [])
    = Ok (mkRatingResponse "s1" 0%Q 0).
Proof.
  assert (Hp : process reingest_data (create_database None) =
    Some (mkDb [reingested_row] [])) by (vm_compute; reflexivity).
  split; [exact Hp|].
  refine (proj2 (proj2 (proj2 (first_ingestion_unrated _ _ Hp))
                  (reingested_row) _)).
  left.
Defined.

(** ** Aggregates and listings under rating *)

Lemma log_ok_ratings_of (sid : string) (db : database) :
  log_ok db → Forall valid_rating (ratings_of sid db).
Proof.
  intros Hlog. unfold ratings_of. apply Forall_fmap.
  apply Forall_forall. intros r Hr. apply list_elem_of_filter in Hr as [_ Hr].
  unfold log_ok in Hlog. rewrite Forall_forall in Hlog. by apply Hlog.
Qed.

(** X20.  For a song with logged ratings in 1..5, at most 10^12 of them,
    the [average_rating] that [get_song_rating] returns is a whole number
    of hundredths and lies within 0.005 of the exact mean, sum over
    count, of the logged values: the rounding error of the binary64
    division is too small to carry the mean across a rounding
    boundary. *)
Theorem average_rating_accuracy (sid : string) (db : database) :
  song_exists sid db →
  ratings_of sid db ≠ [] →
  log_ok db →
  Z.of_nat (length (ratings_of sid db)) ≤ 10 ^ 12 →
  ∃ r, get_song_rating sid db = Ok r
    ∧ (Qabs (inject_Z (sum_Z (ratings_of sid db))
             / inject_Z (Z.of_nat (length (ratings_of sid db)))
             - average_rating r) <= 1 # 200)%Q
    ∧ ∃ k : Z, (average_rating r == inject_Z k / 100)%Q.
Proof.
  intros He Hne Hlog Hlen. eexists. split; [by apply get_song_rating_exists|].
  cbn [average_rating]. split.
  - apply round_quotient_close.
    + split; [|done]. destruct (ratings_of sid db); [done | simpl length; lia].
    + by apply sum_Z_bounds, log_ok_ratings_of.
  - exists (round_half_even (mean (ratings_of sid db) * inject_Z (10 ^ 2))).
    unfold py_round. cbv zeta. by rewrite Qred_correct, Qmake_Qdiv.
Qed.

Lemma average_rating_accuracy_witness :
  song_exists "s1" twice_rated_store
  ∧ ratings_of "s1" twice_rated_store ≠ []
  ∧ log_ok twice_rated_store
  ∧ Z.of_nat (length (ratings_of "s1" twice_rated_store)) ≤ 10 ^ 12
  ∧ ∃ r, get_song_rating "s1" twice_rated_store = Ok r
      ∧ (Qabs (inject_Z (sum_Z (ratings_of "s1" twice_rated_store))
               / inject_Z (Z.of_nat (length (ratings_of "s1" twice_rated_store)))
               - average_rating r) <= 1 # 200)%Q
      ∧ ∃ k : Z, (average_rating r == inject_Z k / 100)%Q.
Proof.
  assert (He : song_exists "s1" twice_rated_store) by by_decision.
  assert (Hne : ratings_of "s1" twice_rated_store ≠ []) by (by vm_compute).
  assert (Hlog : log_ok twice_rated_store).
  { repeat constructor; by_decision. }
  assert (Hlen : Z.of_nat (length (ratings_of "s1" twice_rated_store)) ≤ 10 ^ 12)
    by (by vm_compute).
  split; [exact He | split; [exact Hne | split; [exact Hlog | split; [exact Hlen|]]]].
  exact (average_rating_accuracy "s1" twice_rated_store He Hne Hlog Hlen).
Defined.

Lemma sum_Z_app (l1 l2 : list Z) : sum_Z (l1 ++ l2) = sum_Z l1 + sum_Z l2.
Proof.
  unfold sum_Z. induction l1 as [|v l1 IH]; simpl; lia.
Qed.

Lemma sum_Z_replicate (n : nat) (v : Z) :
  sum_Z (replicate n v) = Z.of_nat n * v.
Proof.
  unfold sum_Z. induction n as [|n IH]; [done|].
  cbn [replicate foldr]. lia.
Qed.

Lemma ratings_of_single_song (sid : string) (ss : list Song) (l : list Z) :
  ratings_of sid (mkDb ss (mkRating sid <$> l)) = l.
Proof.
  unfold ratings_of. cbn [song_ratings].
  rewrite filter_all by (intros r Hr; by apply list_elem_of_fmap in Hr as (? & -> & _)).
  rewrite <- list_fmap_compose. apply list_fmap_id.
Qed.

(** The accuracy of the returned average needs a bound on the count.  In
    a log of 418911338989570 threes and 394508736718333 fours for one
    song the exact mean lies above 3.485 by less than the rounding error
    of the division; the double that [AVG] returns lies below 3.485, and
    the answer 3.48 is more than 0.005 away from the exact mean. *)
Lemma long_log_rounds_across :
  ∃ db : database,
    song_exists "s1" db
    ∧ log_ok db
    ∧ Z.of_nat (length (ratings_of "s1" db)) = 813420075707903
    ∧ sum_Z (ratings_of "s1" db) = 2834768963842042
    ∧ get_song_rating "s1" db =
        Ok (mkRatingResponse "s1" (87 # 25) 813420075707903)
    ∧ ¬ (Qabs (inject_Z 2834768963842042 / inject_Z 813420075707903
               - (87 # 25)) <= 1 # 200)%Q.
Proof.
  assert (Hnat : ∀ z, 0 ≤ z → ∃ n : nat, Z.of_nat n = z).
  { intros z Hz. exists (Z.to_nat z). by apply Z2Nat.id. }
  destruct (Hnat 418911338989570 ltac:(lia)) as [a Ha].
  destruct (Hnat 394508736718333 ltac:(lia)) as [b Hb].
  set (l := replicate a 3 ++ replicate b 4).
  assert (Hlen : Z.of_nat (length l) = 813420075707903)
    by (unfold l; rewrite length_app, !length_replicate; lia).
  assert (Hsum : sum_Z l = 2834768963842042)
    by (unfold l; rewrite sum_Z_app, !sum_Z_replicate; lia).
  assert (Hv : Forall valid_rating l).
  { apply Forall_app. split; apply Forall_replicate; unfold valid_rating; lia. }
  clearbody l.
  exists (mkDb [bare_song "s1" "3AM"] (mkRating "s1" <$> l)).
  assert (He : song_exists "s1" (mkDb [bare_song "s1" "3AM"] (mkRating "s1" <$> l)))
    by (unfold song_exists; cbn [songs]; by_decision).
  rewrite (get_song_rating_exists _ _ He), ratings_of_single_song.
  split; [exact He|]. split.
  { unfold log_ok. cbn [song_ratings]. apply Forall_fmap.
    eapply Forall_impl; [exact Hv|]. intros v Hvv. by split. }
  split; [exact Hlen | split; [exact Hsum|]].
  unfold mean. rewrite Hlen, Hsum. split; [by vm_compute | by vm_compute].
Qed.

Lemma sum_Z_Permutation (l1 l2 : list Z) : l1 ≡ₚ l2 → sum_Z l1 = sum_Z l2.
Proof.
  unfold sum_Z. induction 1; simpl; lia.
Qed.

Lemma mean_Permutation (l1 l2 : list Z) : l1 ≡ₚ l2 → mean l1 = mean l2.
Proof.
  intros H. unfold mean.
  by rewrite (sum_Z_Permutation _ _ H), (Permutation_length H).
Qed.

(** X21.  The aggregate does not depend on the order in which ratings
    arrive: two runs of submissions on the same database whose values
    for a song are the same up to order lead to the same answer of
    [get_song_rating] for that song. *)
Theorem rating_order_irrelevant (sid : string)
    (calls1 calls2 : list (string * Z)) (db : database) :
  song_exists sid db →
  Forall valid_rating (values_for sid calls1) →
  values_for sid calls1 ≡ₚ values_for sid calls2 →
  get_song_rating sid (submit_ratings calls1 db) =
  get_song_rating sid (submit_ratings calls2 db).
Proof.
  intros He Hv Hp.
  assert (Hv2 : Forall valid_rating (values_for sid calls2))
    by (by rewrite <- Hp).
  rewrite !get_song_rating_exists by (by apply submit_ratings_song_exists).
  rewrite !submit_ratings_ratings_of by done.
  assert (Hperm : ratings_of sid db ++ values_for sid calls1
                  ≡ₚ ratings_of sid db ++ values_for sid calls2)
    by (by rewrite Hp).
  by rewrite (mean_Permutation _ _ Hperm), (Permutation_length Hperm).
Qed.

Lemma rating_order_irrelevant_witness :
  song_exists "s1" rated_store
  ∧ Forall valid_rating (values_for "s1" example_calls)
  ∧ values_for "s1" example_calls ≡ₚ values_for "s1" reordered_calls
  ∧ get_song_rating "s1" (submit_ratings example_calls rated_store) =
    get_song_rating "s1" (submit_ratings reordered_calls rated_store).
Proof.
  assert (He : song_exists "s1" rated_store) by by_decision.
  assert (Hv : Forall valid_rating (values_for "s1" example_calls))
    by by_decision.
  assert (Hp : values_for "s1" example_calls ≡ₚ values_for "s1" reordered_calls)
    by (apply Permutation_swap).
  split; [exact He | split; [exact Hv | split; [exact Hp|]]].
  exact (rating_order_irrelevant "s1" example_calls reordered_calls
           rated_store He Hv Hp).
Defined.

(** X22.  The search ignores the case of ASCII letters, in the query and
    in the titles: queries with the same ASCII lower-casing return the
    same list, and whether a song matches depends on its title only
    through the title's ASCII lower-casing. *)
Theorem search_ignores_ascii_case (q1 q2 : string) :
  sql_lower q1 = sql_lower q2 →
  (∀ db, search_songs_by_title (Some q1) db
         = search_songs_by_title (Some q2) db)
  ∧ (∀ s1 s2, sql_lower (title s1) = sql_lower (title s2) →
       title_like q1 s1 = title_like q2 s2).
Proof.
  intros H. split.
  - intros db. by apply search_ascii_case_insensitive.
  - intros s1 s2 Ht. unfold title_like. by rewrite !sql_lower_app, H, Ht.
Qed.

Lemma search_ignores_ascii_case_witness :
  sql_lower "3am" = sql_lower "3AM"
  ∧ search_songs_by_title (Some "3am") example_store
    = search_songs_by_title (Some "3AM") example_store.
Proof.
  assert (H : sql_lower "3am" = sql_lower "3AM") by reflexivity.
  split; [exact H|].
  exact (proj1 (search_ignores_ascii_case "3am" "3AM" H) example_store).
Defined.

Lemma insert_by_title_fmap (f : Song → Song) (x : Song) (l : list Song) :
  (∀ s, title (f s) = title s) →
  insert_by_title (f x) (f <$> l) = f <$> insert_by_title x l.
Proof.
  intros Hf. induction l as [|y l IH]; [done|].
  rewrite fmap_cons. cbn [insert_by_title]. rewrite !Hf.
  destruct (String.leb (title x) (title y)); [done|].
  rewrite fmap_cons. f_equal. apply IH.
Qed.

Lemma order_by_title_fmap (f : Song → Song) (l : list Song) :
  (∀ s, title (f s) = title s) →
  order_by_title (f <$> l) = f <$> order_by_title l.
Proof.
  intros Hf. induction l as [|x l IH]; [done|].
  change (order_by_title (f <$> x :: l))
    with (insert_by_title (f x) (order_by_title (f <$> l))).
  rewrite IH. by apply insert_by_title_fmap.
Qed.

Lemma filter_title_like_fmap (f : Song → Song) (q : string) (l : list Song) :
  (∀ s, title (f s) = title s) →
  filter (λ s, title_like q s = true) (f <$> l) =
  f <$> filter (λ s, title_like q s = true) l.
Proof.
  intros Hf. induction l as [|x l IH]; [done|].
  assert (E : title_like q (f x) = title_like q x)
    by (unfold title_like; by rewrite Hf).
  rewrite fmap_cons, !filter_cons, IH.
  destruct (decide (title_like q (f x) = true)),
    (decide (title_like q x = true)); try done; congruence.
Qed.

Lemma listings_depend_on_rows_up_to_rating (db1 db2 : database) :
  set_star_rating None <$> songs db1 = set_star_rating None <$> songs db2 →
  (∀ p pp, set_star_rating None <$> page_items p pp db1 =
           set_star_rating None <$> page_items p pp db2)
  ∧ (∀ q, (set_star_rating None <$>
             order_by_title (filter (λ s, title_like q s = true) (songs db1)))
          = set_star_rating None <$>
             order_by_title (filter (λ s, title_like q s = true) (songs db2))).
Proof.
  intros H.
  assert (Hf : ∀ s, title (set_star_rating None s) = title s) by done.
  split.
  - intros p pp.
    assert (Hlen : length (songs db1) = length (songs db2)).
    { apply (f_equal length) in H. by rewrite !length_fmap in H. }
    unfold page_items, get_all_songs, sql_count. rewrite Hlen.
    destruct (negb (1 <=? p) || negb ((1 <=? pp) && (pp <=? 100))); [done|].
    cbv zeta. destruct (sqlite_int64_max <? (p - 1) * pp); [done|].
    cbn [resp_songs]. unfold limit_offset.
    destruct (pp <? 0); rewrite ?fmap_take, !fmap_drop,
      <- !order_by_title_fmap, H by done; done.
  - intros q. by rewrite <- !order_by_title_fmap,
      <- !filter_title_like_fmap, H by done.
Qed.

(** X23.  Rating never moves a song in a listing: after any run of
    rating submissions, every page of [get_all_songs] and every search
    shows the same songs in the same positions as before, differing at
    most in [star_rating], and [total] and [total_pages] are
    unchanged. *)
Theorem ratings_do_not_move_songs (calls : list (string * Z)) (db : database) :
  (∀ p pp,
     set_star_rating None <$> page_items p pp (submit_ratings calls db) =
     set_star_rating None <$> page_items p pp db)
  ∧ (∀ q items items',
       search_songs_by_title (Some q) db = Ok items →
       search_songs_by_title (Some q) (submit_ratings calls db) = Ok items' →
       set_star_rating None <$> items' = set_star_rating None <$> items)
  ∧ (∀ p pp r r',
       get_all_songs p pp db = Ok r →
       get_all_songs p pp (submit_ratings calls db) = Ok r' →
       total r' = total r ∧ total_pages r' = total_pages r).
Proof.
  pose proof (submit_ratings_rows calls db) as Hrows.
  destruct (listings_depend_on_rows_up_to_rating _ _ Hrows) as [Hp Hs].
  split; [exact Hp|]. split.
  - intros q items items' [= <-] [= <-]. apply Hs.
  - intros p pp r r' Hr Hr'.
    assert (Hlen : length (songs (submit_ratings calls db)) = length (songs db)).
    { apply (f_equal length) in Hrows. by rewrite !length_fmap in Hrows. }
    apply get_all_songs_Ok_inv in Hr as (_ & _ & ->).
    apply get_all_songs_Ok_inv in Hr' as (_ & _ & ->).
    cbn [total total_pages]. by rewrite Hlen.
Qed.

Lemma ratings_do_not_move_songs_witness :
  search_songs_by_title (Some "3am") example_store
    = Ok [bare_song "s1" "3AM"]
  ∧ search_songs_by_title (Some "3am")
      (submit_ratings example_calls example_store)
    = Ok [set_star_rating (Some (9 # 2)) (bare_song "s1" "3AM")]
  ∧ set_star_rating None
      <$> [set_star_rating (Some (9 # 2)) (bare_song "s1" "3AM")]
    = set_star_rating None <$> [bare_song "s1" "3AM"].
Proof.
  assert (H1 : search_songs_by_title (Some "3am") example_store
                 = Ok [bare_song "s1" "3AM"]) by reflexivity.
  assert (H2 : search_songs_by_title (Some "3am")
                 (submit_ratings example_calls example_store)
               = Ok [set_star_rating (Some (9 # 2)) (bare_song "s1" "3AM")])
    by reflexivity.
  split; [exact H1 | split; [exact H2|]].
  exact (proj1 (proj2 (ratings_do_not_move_songs example_calls example_store))
           "3am" _ _ H1 H2).
Defined.
